(** * Bug-reproduction pipeline: the worker algorithms, embedded and verified

    The Python workers of the pipeline (validate, signal, map and ingest) are
    embedded as Rocq functions, one module per worker, and the properties the
    specification states about them are proved or refuted on that embedding.

    Conventions of the embedding:
    - Python [float] values that the workers compute with ([pass_rate],
      similarities, confidences) are exact rationals [Q]; every float operation
      the modelled code performs is a division of small integers, a product
      with a decimal literal or a comparison, and is read as the exact
      operation.
    - Python [int] is [Z]; list positions and lengths are [nat] where the code
      only counts and [Z] where it computes with offsets.
    - A Python [str] that the code looks into is a list of characters
      ([list ascii], code points below 256); one that is only stored or
      passed on (an id, a message, a URL) is a [string].
    - A [dict] used as a record is a [Record]; a database table with a primary
      key is a [gmap] from the key to the row. *)

From Stdlib Require Import ZArith QArith List String Ascii Bool Lia.
From stdpp Require Import gmap strings list fin_maps.

Import ListNotations.

#[local] Open Scope Z_scope.

(** ** Rational helpers shared by the workers *)

Definition Qsum (l : list Q) : Q := fold_right Qplus (0 # 1) l.

Definition Qlen {A : Type} (l : list A) : Q := inject_Z (Z.of_nat (length l)).

(** [sum(xs) / len(xs)] *)
Definition Qmean (l : list Q) : Q := (Qsum l / Qlen l)%Q.

(** * Validate worker (workers/validate-worker/worker.py) *)
Module Validate.

(** One entry of [run_results], as [_execute_single_run] and the exception
    branch of [run_validation_cycle] build it. *)
Record run_result : Type := mk_run_result {
  run_number : Z;
  passed : bool;
  duration_ms : Z;
  logs : string;
  video_url : string;
  trace_url : string
}.

Inductive stability_class_t : Type :=
| stable
| mostly_stable
| unstable
| very_unstable.

Record run_summary : Type := mk_run_summary {
  total_runs : nat;
  passed_runs : nat;
  failed_runs : nat;
  pass_rate : Q
}.

(** The dictionary [_calculate_stability_metrics] returns.  The keys
    [stability_class] and [summary] are absent from the dictionary of the
    empty case, hence the options.  [performance_stats] (statistics over the
    durations) feeds no other field and is left out. *)
Record stability_metrics : Type := mk_stability_metrics {
  stability_score : Q;
  flaky_score : Q;
  consistency_score : Q;
  stability_class : option stability_class_t;
  summary : option run_summary
}.

(** [numpy.var(a)] with its default [ddof = 0]:
    [mean(abs(a - a.mean()) ** 2)], the population variance. *)
Definition np_var (a : list Q) : Q :=
  let m := Qmean a in
  Qmean (map (fun x => ((x - m) * (x - m))%Q) a).

(** [[1 if r.get('passed') else 0 for r in run_results]] *)
Definition results_binary (run_results : list run_result) : list Z :=
  map (fun r => if passed r then 1 else 0) run_results.

Definition classify (rate : Q) : stability_class_t :=
  if Qeq_bool rate 1 then stable
  else if Qle_bool (8 # 10) rate then mostly_stable
  else if Qle_bool (5 # 10) rate then unstable
  else very_unstable.

Definition _calculate_stability_metrics (run_results : list run_result)
  : stability_metrics :=
  match run_results with
  | [] =>
      {| stability_score := 0; flaky_score := 1; consistency_score := 0;
         stability_class := None; summary := None |}
  | _ :: _ =>
      let passed_runs := List.filter passed run_results in
      let failed_runs := List.filter (fun r => negb (passed r)) run_results in
      let rate := (Qlen passed_runs / Qlen run_results)%Q in
      let bin := results_binary run_results in
      let flaky :=
        if decide (1 < size (list_to_set bin : gset Z))%nat
        then np_var (map inject_Z bin)
        else 0%Q in
      {| stability_score := rate;
         flaky_score := flaky;
         consistency_score := (1 - flaky)%Q;
         stability_class := Some (classify rate);
         summary := Some {| total_runs := length run_results;
                            passed_runs := length passed_runs;
                            failed_runs := length failed_runs;
                            pass_rate := rate |} |}
  end.

(** ** Delta minimization *)

(** config.py declares a budget for the minimization, in seconds.  Nothing in
    worker.py reads it: the loop below has no clock. *)
Module config.
Definition minimization_timeout : Z := 300.
End config.

(** What one call of the minimizer can do: return a step list, raise (the
    [ValueError] of [range] with a zero step, which
    [_perform_delta_minimization] catches), or still be looping when the
    iteration budget of the model is used up. *)
Inductive outcome (A : Type) : Type :=
| Returned (steps : list A)
| Raised
| OutOfFuel.
Arguments Returned {A} steps.
Arguments Raised {A}.
Arguments OutOfFuel {A}.

(** What one pass through the body of the [while] loop does to the loop
    variables [steps] and [n]. *)
Inductive iteration (A : Type) : Type :=
| Reduced (remaining_steps : list A) (n : nat)
| Regrouped (n : nat)
| Failed.
Arguments Reduced {A} remaining_steps n.
Arguments Regrouped {A} n.
Arguments Failed {A}.

Section DeltaMinimization.
Context {A : Type} `{EqDecision A}.

(** [[items[i:i + subset_size] for i in range(0, len(items), subset_size)]],
    by recursion on a bound for the number of slices. *)
Fixpoint slices (bound subset_size : nat) (items : list A) : list (list A) :=
  match bound with
  | O => []
  | S bound' =>
      match items with
      | [] => []
      | _ :: _ =>
          firstn subset_size items
            :: slices bound' subset_size (skipn subset_size items)
      end
  end.

(** [range(0, len(items), 0)] raises [ValueError]; so does the division for
    [n = 0]. *)
Definition _split_into_subsets (items : list A) (n : nat)
  : option (list (list A)) :=
  let subset_size := (length items / n)%nat in
  match subset_size with
  | O => None
  | S _ => Some (slices (length items) subset_size items)
  end.

(** [[s for s in steps if s not in subset]] *)
Definition without (steps subset : list A) : list A :=
  filter (λ s, s ∉ subset) steps.

(** [_test_steps_still_fail] as the source has it:
    [len(steps) > len(steps) * 0.5]. *)
Definition _test_steps_still_fail (steps : list A) : bool :=
  negb (Qle_bool (Qlen steps) (Qlen steps * (5 # 10))).

(** The minimizer, for an arbitrary predicate in the place of
    [self._test_steps_still_fail]. *)
Variable still_fail : list A -> bool.

(** The [for subset in subsets] loop: the first subset whose removal leaves
    a failing test. *)
Fixpoint first_removable (steps : list A) (subsets : list (list A))
  : option (list A) :=
  match subsets with
  | [] => None
  | subset :: subsets' =>
      let remaining_steps := without steps subset in
      if still_fail remaining_steps then Some remaining_steps
      else first_removable steps subsets'
  end.

Definition loop_body (steps : list A) (n : nat) : iteration A :=
  match _split_into_subsets steps n with
  | None => Failed
  | Some subsets =>
      match first_removable steps subsets with
      | Some remaining_steps => Reduced remaining_steps (Nat.max (n - 1) 2)
      | None => Regrouped (Nat.min (n * 2) (length steps))
      end
  end.

(** [while len(steps) >= 2: ...; return steps], at most [fuel] passes. *)
Fixpoint minimization_loop (fuel : nat) (steps : list A) (n : nat)
  : outcome A :=
  match fuel with
  | O => OutOfFuel
  | S fuel' =>
      if (2 <=? length steps)%nat then
        match loop_body steps n with
        | Reduced remaining_steps n' =>
            minimization_loop fuel' remaining_steps n'
        | Regrouped n' => minimization_loop fuel' steps n'
        | Failed => Raised
        end
      else Returned steps
  end.

Definition _delta_minimization_algorithm (fuel : nat) (steps : list A)
  : outcome A :=
  minimization_loop fuel steps 2.

End DeltaMinimization.

(** ** Persistence of a validation cycle *)

Inductive repro_status : Type :=
| created
| validated
| exported.

Record repro_row : Type := mk_repro_row {
  status : repro_status;
  updated_at : Z
}.

Record run_row : Type := mk_run_row {
  row_repro_id : string;
  iteration_no : Z;
  row_passed : bool;
  row_duration_ms : Z;
  logs_s3 : string;
  video_s3 : string;
  trace_s3 : string;
  created_at : Z
}.

Record stability_record : Type := mk_stability_record {
  cached_stability_score : Q;
  cached_flaky_score : Q;
  cached_stability_class : stability_class_t;
  last_validation : Z
}.

(** The relational tables the function writes and the key-value cache; a
    cache entry carries its time to live in seconds. *)
Record store : Type := mk_store {
  repros : gmap string repro_row;
  runs : list run_row;
  cache : gmap string (stability_record * Z)
}.

(** The part of [validation_summary] that the persistence step reads. *)
Record validation_summary : Type := mk_validation_summary {
  summary_repro_id : string;
  summary_total_runs : nat;
  stability_analysis : stability_metrics;
  run_results : list run_result
}.

(** The summary [run_validation_cycle] assembles from the processed runs. *)
Definition summarize (repro_id : string) (results : list run_result)
  : validation_summary :=
  {| summary_repro_id := repro_id;
     summary_total_runs := length results;
     stability_analysis := _calculate_stability_metrics results;
     run_results := results |}.

Definition run_row_of (repro_id : string) (now : Z) (r : run_result) : run_row :=
  {| row_repro_id := repro_id;
     iteration_no := run_number r;
     row_passed := passed r;
     row_duration_ms := duration_ms r;
     logs_s3 := logs r;
     video_s3 := video_url r;
     trace_s3 := trace_url r;
     created_at := now |}.

(** [_save_validation_results]: the [UPDATE] and the [INSERT]s run in one
    transaction that is committed after the cache write.  Building the cache
    payload reads [results['stability_analysis']['stability_class']]; when the
    key is absent the [KeyError] is caught and logged by the function's
    [except] clause before [conn.commit()], and nothing is written. *)
Definition _save_validation_results (now : Z) (repro_id : string)
    (results : validation_summary) (db : store) : store :=
  let analysis := stability_analysis results in
  match stability_class analysis with
  | None => db
  | Some class =>
      {| repros :=
           alter (λ r, {| status := validated; updated_at := now |})
                 repro_id (repros db);
         runs := runs db ++ map (run_row_of repro_id now) (run_results results);
         cache :=
           <[ ("stability:" +:+ repro_id)%string :=
                ({| cached_stability_score := stability_score analysis;
                    cached_flaky_score := flaky_score analysis;
                    cached_stability_class := class;
                    last_validation := now |}, 86400) ]> (cache db) |}
  end.

(** ** When and on what the minimizer is run *)

(** config.py: [flaky_threshold], default 0.3. *)
Definition flaky_threshold : Q := 3 # 10.

(** A test step is a [dict] of strings. *)
Definition test_step : Type := gmap string string.

(** [_extract_test_steps]: the same three steps for every run. *)
Definition _extract_test_steps (run : run_result) : list test_step :=
  [ {[ "type" := "navigation"; "url" := "https://example.com";
       "description" := "Navigate to page" ]};
    {[ "type" := "interaction"; "selector" := "button"; "action" := "click";
       "description" := "Click button" ]};
    {[ "type" := "assertion"; "selector" := "h1"; "expected" := "Success";
       "description" := "Verify success" ]} ]%string.

(** The dictionaries [_perform_delta_minimization] returns. *)
Inductive minimization_report : Type :=
| minimal_already (minimized_steps : nat)
| completed (original_steps minimized_steps : nat) (reduction_percentage : Q)
            (minimized_test : list test_step)
| failed.

(** [_perform_delta_minimization].  The outer option is the model's: [None]
    when the minimizer is still looping after [fuel] passes.  The inner one
    is Python's [None], returned when no run failed. *)
Definition _perform_delta_minimization (fuel : nat)
    (results : list run_result) : option (option minimization_report) :=
  let failing_runs := List.filter (fun r => negb (passed r)) results in
  match failing_runs with
  | [] => Some None
  | failing_run :: _ =>
      let original_steps := _extract_test_steps failing_run in
      if (length original_steps <=? 1)%nat
      then Some (Some (minimal_already (length original_steps)))
      else
        match _delta_minimization_algorithm _test_steps_still_fail fuel
                original_steps with
        | Returned minimized_steps =>
            Some (Some (completed (length original_steps)
                          (length minimized_steps)
                          ((1 - Qlen minimized_steps / Qlen original_steps)
                           * 100)%Q
                          minimized_steps))
        | Raised => Some (Some failed)
        | OutOfFuel => None
        end
  end.

(** [minimization_results] as [run_validation_cycle] computes it. *)
Definition cycle_minimization (fuel : nat) (results : list run_result)
  : option (option minimization_report) :=
  let stability_analysis := _calculate_stability_metrics results in
  if negb (Qle_bool (flaky_score stability_analysis) flaky_threshold)
  then _perform_delta_minimization fuel results
  else Some None.

End Validate.

(** * Signal worker (workers/signal-worker/worker.py) *)
Module Signal.

(** ** HAR parsing *)

(** The fields of a HAR page and entry that [parse_har_file] reads; a key
    that may be missing from the JSON object is an option. *)
Record har_page : Type := mk_har_page {
  page_id : option string;
  title : option string;
  onLoad : option Z
}.

Record har_entry : Type := mk_har_entry {
  url : option string;
  method : option string;
  response_status : option Z;
  content_size : option Z
}.

Record parsed_entry : Type := mk_parsed_entry {
  entry_url : option string;
  entry_method : option string;
  entry_status : Z;
  responseSize : Z
}.

Record har_summary : Type := mk_har_summary {
  total_requests : Z;
  failed_requests : Z;
  total_size : Z;
  load_time : Z
}.

Record parsed_har : Type := mk_parsed_har {
  pages : list har_page;
  entries : list parsed_entry;
  summary : har_summary
}.

(** [response.get('status', 0)] *)
Definition status_of (e : har_entry) : Z := default 0 (response_status e).

(** [content.get('size', 0)] *)
Definition size_of (e : har_entry) : Z := default 0 (content_size e).

(** [page.get('pageTimings', {}).get('onLoad', 0)] *)
Definition onLoad_of (p : har_page) : Z := default 0 (onLoad p).

(** The loop variables of [for entry in ...]. *)
Record entry_loop : Type := mk_entry_loop {
  acc_entries : list parsed_entry;
  acc_total_requests : Z;
  acc_failed_requests : Z;
  acc_total_size : Z
}.

Definition entry_step (acc : entry_loop) (e : har_entry) : entry_loop :=
  let status := status_of e in
  let size := size_of e in
  {| acc_entries :=
       acc_entries acc ++
       [{| entry_url := url e; entry_method := method e;
           entry_status := status; responseSize := size |}];
     acc_total_requests := acc_total_requests acc + 1;
     acc_failed_requests :=
       if 400 <=? status then acc_failed_requests acc + 1
       else acc_failed_requests acc;
     acc_total_size :=
       if 0 <? size then acc_total_size acc + size else acc_total_size acc |}.

(** Python's [max] of a non-empty list. *)
Definition py_max (first : Z) (others : list Z) : Z :=
  fold_left Z.max others first.

Definition parse_har_file (har_pages : list har_page)
    (har_entries : list har_entry) : parsed_har :=
  let acc := fold_left entry_step har_entries
               {| acc_entries := []; acc_total_requests := 0;
                  acc_failed_requests := 0; acc_total_size := 0 |} in
  let load_times :=
    List.filter (fun t => 0 <? t) (map onLoad_of har_pages) in
  {| pages := har_pages;
     entries := acc_entries acc;
     summary :=
       {| total_requests := acc_total_requests acc;
          failed_requests := acc_failed_requests acc;
          total_size := acc_total_size acc;
          load_time :=
            match load_times with
            | [] => 0
            | t :: ts => py_max t ts
            end |} |}.

(** ** Error signatures and their clustering *)

Record signature : Type := mk_signature {
  signature_hash : string;
  error_type : string;
  message : string;
  details : option string;
  stack_trace : option string;
  key_components : list string;
  severity : string;
  frequency : Z;
  cluster_id : option string
}.

(** The key of [clustered_signatures]: a DBSCAN label, or the string
    [noise_<i>] for the [i]-th signature when its label is [-1]. *)
Inductive cluster_key : Type :=
| Label (l : Z)
| Noise (i : nat).

#[global] Instance cluster_key_eq_dec : EqDecision cluster_key.
Proof. solve_decision. Defined.

(** [str(cluster_id)], left abstract. *)
Section Clustering.
Variable str_of_key : cluster_key -> string.

(** [clustered_signatures] is a [dict]: it keeps the order in which the keys
    were first inserted. *)
Fixpoint append_to_cluster (key : cluster_key) (sig : signature)
    (clusters : list (cluster_key * list signature))
  : list (cluster_key * list signature) :=
  match clusters with
  | [] => [(key, [sig])]
  | (k, sigs) :: clusters' =>
      if decide (k = key) then (k, sigs ++ [sig]) :: clusters'
      else (k, sigs) :: append_to_cluster key sig clusters'
  end.

(** The loop [for i, signature in enumerate(signatures)], from index [i] on;
    [None] when [cluster_labels[i]] is out of range. *)
Fixpoint group_by_cluster (cluster_labels : list Z) (i : nat)
    (signatures : list signature)
    (clusters : list (cluster_key * list signature))
  : option (list (cluster_key * list signature)) :=
  match signatures with
  | [] => Some clusters
  | sig :: signatures' =>
      match cluster_labels !! i with
      | None => None
      | Some l =>
          let key := if decide (l = -1) then Noise i else Label l in
          let signature_copy :=
            {| signature_hash := signature_hash sig;
               error_type := error_type sig;
               message := message sig;
               details := details sig;
               stack_trace := stack_trace sig;
               key_components := key_components sig;
               severity := severity sig;
               frequency := frequency sig;
               cluster_id := Some (str_of_key key) |} in
          group_by_cluster cluster_labels (S i) signatures'
            (append_to_cluster key signature_copy clusters)
      end
  end.

(** [min(messages, key=len)]: the first message of least length. *)
Fixpoint _find_common_pattern (first : string) (others : list string) : string :=
  match others with
  | [] => first
  | m :: others' =>
      if (String.length m <? String.length first)%nat
      then _find_common_pattern m others'
      else _find_common_pattern first others'
  end.

(** [_merge_cluster_signatures], for the non-empty list [primary :: others];
    [list(set(...))] is the list without its repetitions (Python fixes no
    order for it). *)
Definition _merge_cluster_signatures (primary : signature)
    (others : list signature) : signature :=
  let signatures := primary :: others in
  let all_components := concat (map key_components signatures) in
  let messages := map message signatures in
  {| signature_hash := signature_hash primary;
     error_type := error_type primary;
     message :=
       if decide (1 < length (remove_dups messages))%nat
       then _find_common_pattern (message primary) (map message others)
       else message primary;
     details := details primary;
     stack_trace := stack_trace primary;
     key_components := remove_dups all_components;
     severity := severity primary;
     frequency := Z.of_nat (length signatures);
     cluster_id := cluster_id primary |}.

(** One pass of [for cluster_id, cluster_sigs in clustered_signatures.items()]. *)
Definition merge_cluster (cluster_sigs : list signature) : list signature :=
  match cluster_sigs with
  | primary :: (_ :: _) as others =>
      [_merge_cluster_signatures primary others]
  | _ => cluster_sigs
  end.

(** [cluster_error_signatures].  The embedding and DBSCAN are opaque: the
    function is given whether a model is loaded and what the fit returned
    ([None] when the embedding or the fit raised). *)
Definition cluster_error_signatures (embedding_model : bool)
    (cluster_labels : option (list Z)) (signatures : list signature)
  : list signature :=
  match signatures, embedding_model with
  | [], _ | _, false => signatures
  | _ :: _, true =>
      match cluster_labels with
      | None => signatures
      | Some labels =>
          match group_by_cluster labels 0 signatures [] with
          | None => signatures
          | Some clustered_signatures =>
              concat (map (fun kv => merge_cluster (snd kv))
                          clustered_signatures)
          end
      end
  end.

End Clustering.

(** ** Persistence of the clustered signatures *)

Record signature_row : Type := mk_signature_row {
  row_report_id : string;
  row_error_type : string;
  row_message : string;
  row_details : option string;
  row_stack_trace : option string;
  row_key_components : list string;
  row_severity : string;
  row_frequency : Z;
  row_embedding : list Q;
  row_created_at : Z;
  row_updated_at : option Z
}.

(** The f-string [f"{signature['message']} {signature.get('details', '')}"]. *)
Definition text_for_embedding (sig : signature) : string :=
  (message sig +:+ " " +:+ default "None" (details sig))%string.

Section Persistence.
(** The sentence-embedding model, when one is loaded. *)
Variable embedding_model : option (string -> list Q).

Definition embedding_vector (sig : signature) : list Q :=
  match embedding_model with
  | Some encode => encode (text_for_embedding sig)
  | None => repeat (0 # 1)%Q 384
  end.

(** [INSERT INTO error_signatures ... ON CONFLICT (signature_hash) DO UPDATE
    SET frequency = error_signatures.frequency + 1, updated_at = NOW()], on
    the table keyed by its conflict target. *)
Definition upsert_signature (now : Z) (report_id : string)
    (table : gmap string signature_row) (sig : signature)
  : gmap string signature_row :=
  match table !! signature_hash sig with
  | Some row =>
      <[ signature_hash sig :=
           {| row_report_id := row_report_id row;
              row_error_type := row_error_type row;
              row_message := row_message row;
              row_details := row_details row;
              row_stack_trace := row_stack_trace row;
              row_key_components := row_key_components row;
              row_severity := row_severity row;
              row_frequency := row_frequency row + 1;
              row_embedding := row_embedding row;
              row_created_at := row_created_at row;
              row_updated_at := Some now |} ]> table
  | None =>
      <[ signature_hash sig :=
           {| row_report_id := report_id;
              row_error_type := error_type sig;
              row_message := message sig;
              row_details := details sig;
              row_stack_trace := stack_trace sig;
              row_key_components := key_components sig;
              row_severity := severity sig;
              row_frequency := frequency sig;
              row_embedding := embedding_vector sig;
              row_created_at := now;
              row_updated_at := None |} ]> table
  end.

(** [save_clustered_signatures]: one statement per signature, one commit. *)
Definition save_clustered_signatures (now : Z) (report_id : string)
    (signatures : list signature) (table : gmap string signature_row)
  : gmap string signature_row :=
  fold_left (upsert_signature now report_id) signatures table.

End Persistence.

End Signal.

(** ** Python string operations used by the workers *)
Module Text.

Definition str : Type := list ascii.

Definition newline : ascii := "010"%char.

Definition code (c : ascii) : N := N_of_ascii c.

(** [str.isspace] on one character (code points below 256). *)
Definition is_space (c : ascii) : bool :=
  let n := code c in
  ((9 <=? n) && (n <=? 13) || (28 <=? n) && (n <=? 32)
   || (n =? 133) || (n =? 160))%N.

(** [str.lower] on one character (code points below 256). *)
Definition lower_char (c : ascii) : ascii :=
  let n := code c in
  if ((65 <=? n) && (n <=? 90)
      || (192 <=? n) && (n <=? 222) && negb (n =? 215))%N
  then ascii_of_N (n + 32)
  else c.

Definition lower (s : str) : str := map lower_char s.

Fixpoint lstrip (s : str) : str :=
  match s with
  | [] => []
  | c :: s' => if is_space c then lstrip s' else s
  end.

Definition rstrip (s : str) : str := rev (lstrip (rev s)).

(** [s.strip()] *)
Definition strip (s : str) : str := rstrip (lstrip s).

Fixpoint starts_with (needle hay : str) : bool :=
  match needle, hay with
  | [], _ => true
  | _ :: _, [] => false
  | a :: needle', b :: hay' => Ascii.eqb a b && starts_with needle' hay'
  end.

(** [needle in hay] *)
Fixpoint contains (needle hay : str) : bool :=
  starts_with needle hay
  || match hay with
     | [] => false
     | _ :: hay' => contains needle hay'
     end.

(** [s.split('\n')] *)
Fixpoint split_lines (s : str) : list str :=
  match s with
  | [] => [[]]
  | c :: s' =>
      if Ascii.eqb c newline then [] :: split_lines s'
      else match split_lines s' with
           | line :: lines => (c :: line) :: lines
           | [] => [[c]]
           end
  end.

(** ['\n'.join(lines)] *)
Fixpoint join_lines (lines : list str) : str :=
  match lines with
  | [] => []
  | [line] => line
  | line :: lines' => line ++ newline :: join_lines lines'
  end.

(** [s[a:b]] for indices that are not negative. *)
Definition slice (s : str) (a b : Z) : str :=
  firstn (Z.to_nat (b - a)) (skipn (Z.to_nat a) s).

Definition len (s : str) : Z := Z.of_nat (length s).

(** [s.rfind(c)] for a one-character [c]: the scan from position [i] on,
    with the last position found so far. *)
Fixpoint rfind_from (c : ascii) (s : str) (i last : Z) : Z :=
  match s with
  | [] => last
  | x :: s' => rfind_from c s' (i + 1) (if Ascii.eqb x c then i else last)
  end.

Definition rfind (c : ascii) (s : str) : Z := rfind_from c s 0 (-1).

Definition of_string (s : string) : str := list_ascii_of_string s.

End Text.

(** * Map worker (workers/map-worker/worker.py) *)
Module MapWorker.
Import Text.

(** ** config.py *)
Module settings.
Definition CHUNK_SIZE : Z := 1000.
Definition CHUNK_OVERLAP : Z := 200.
End settings.

(** ** Document splitting *)

(** A chunk as [_split_content] appends it, together with the bounds
    [start] and [end] it was cut at. *)
Record chunk : Type := mk_chunk {
  chunk_start : Z;
  chunk_end : Z;
  chunk_text : str
}.

(** [break_point > start + settings.CHUNK_SIZE * 0.7] *)
Definition past_boundary (start break_point : Z) : bool :=
  negb (Qle_bool (inject_Z break_point)
          (inject_Z start + inject_Z settings.CHUNK_SIZE * (7 # 10))).

(** The body of [while start < len(content)], at most [fuel] times. *)
Fixpoint split_loop (fuel : nat) (content : str) (start : Z) : list chunk :=
  match fuel with
  | O => []
  | S fuel' =>
      if start <? len content then
        let end0 := start + settings.CHUNK_SIZE in
        let chunk0 := slice content start end0 in
        let break_point :=
          Z.max (rfind "."%char chunk0) (rfind newline chunk0) in
        let moved :=
          (end0 <? len content) && past_boundary start break_point in
        let end_ := if moved then start + break_point + 1 else end0 in
        let chunk_ :=
          if moved then slice content start (start + break_point + 1)
          else chunk0 in
        let start' := end_ - settings.CHUNK_OVERLAP in
        {| chunk_start := start; chunk_end := end_;
           chunk_text := strip chunk_ |}
          :: (if len content <=? start' then []
              else split_loop fuel' content start')
      else []
  end.

(** Every pass moves [start] forward, so one pass per character is enough. *)
Definition chunks_of (content : str) : list chunk :=
  split_loop (length content) content 0.

Definition _split_content (content : str) : list str :=
  map chunk_text (chunks_of content).

(** ** Mapping confidence *)

Record doc_result : Type := mk_doc_result {
  file_path : string;
  doc_chunk_text : string;
  similarity : Q
}.

(** Python's [max] keeps the first of equal greatest values. *)
Definition py_max_step (best x : Q) : Q :=
  if Qle_bool x best then best else x.

Definition py_max (first : Q) (others : list Q) : Q :=
  fold_left py_max_step others first.

(** Python's [min(a, b)] returns [b] only when [b < a]. *)
Definition py_min (a b : Q) : Q :=
  if Qle_bool a b then a else b.

(** [framework_scores] is a [dict] from framework name to score, kept as the
    list of its items. *)
Definition _calculate_confidence (framework_scores : list (string * Q))
    (doc_results : list doc_result) : Q :=
  let confidence := 0%Q in
  let confidence :=
    match map snd framework_scores with
    | [] => confidence
    | v :: vs =>
        let max_framework_score := py_max v vs in
        (confidence + max_framework_score * (4 # 10))%Q
    end in
  let confidence :=
    match doc_results with
    | [] => confidence
    | _ :: _ =>
        let avg_similarity :=
          (Qsum (map similarity doc_results) / Qlen doc_results)%Q in
        (confidence + avg_similarity * (6 # 10))%Q
    end in
  py_min confidence 1.

(** ** Framework detection *)

(** config.py: [FRAMEWORK_PATTERNS], in the order of the dictionary. *)
Definition FRAMEWORK_PATTERNS : list (string * list str) :=
  [ ("playwright"%string,
     map of_string ["playwright.config"; "playwright"; "page.goto";
                    "page.click"; "expect(page)"]%string);
    ("cypress"%string,
     map of_string ["cypress.config"; "cypress"; "cy.visit"; "cy.get";
                    "cy.should"]%string);
    ("pytest"%string,
     map of_string ["pytest.ini"; "conftest.py"; "test_"; "pytest";
                    "assert"]%string);
    ("jest"%string,
     map of_string ["jest.config"; "package.json"; "describe("; "it(";
                    "test("; "expect("]%string) ].

(** A path that [git ls-files] lists and that is a file; [file_content] is
    [None] when the file cannot be read as UTF-8. *)
Record tracked_file : Type := mk_tracked_file {
  tracked_path : str;
  file_content : option str
}.

(** [for pattern in patterns: if pattern in text: scores[framework] += weight] *)
Definition add_matches (weight : Q) (text : str) (patterns : list str)
    (score : Q) : Q :=
  fold_left (fun sc pattern =>
               if contains pattern text then (sc + weight)%Q else sc)
            patterns score.

(** One pass of [for framework, patterns in FRAMEWORK_PATTERNS.items()] over
    the scores, kept in the order of the frameworks. *)
Fixpoint add_all_matches (weight : Q) (text : str)
    (frameworks : list (string * list str)) (scores : list Q) : list Q :=
  match frameworks, scores with
  | (_, patterns) :: frameworks', score :: scores' =>
      add_matches weight text patterns score
        :: add_all_matches weight text frameworks' scores'
  | _, _ => scores
  end.

(** The body of the loop over the files. *)
Definition scan_file (scores : list Q) (f : tracked_file) : list Q :=
  let scores :=
    add_all_matches 1 (lower (tracked_path f)) FRAMEWORK_PATTERNS scores in
  match file_content f with
  | Some content =>
      add_all_matches (5 # 10) content FRAMEWORK_PATTERNS scores
  | None => scores
  end.

(** [detect_framework], on the files of the repository; a repository that
    cannot be opened leaves the scores as for no file. *)
Definition detect_framework (files : list tracked_file)
  : list (string * Q) :=
  let scores := map (fun _ => 0%Q) FRAMEWORK_PATTERNS in
  let scores := fold_left scan_file files scores in
  let total := Qsum scores in
  let scores :=
    if Qle_bool total 0 then scores
    else map (fun v => (v / total)%Q) scores in
  combine (map fst FRAMEWORK_PATTERNS) scores.

(** ** Module path suggestions *)

(** Python's stable [sort(key=..., reverse=True)], as insertion of each
    element before the first one of smaller score. *)
Fixpoint insert_by_score (x : str * Q) (sorted : list (str * Q))
  : list (str * Q) :=
  match sorted with
  | [] => [x]
  | y :: sorted' =>
      if Qle_bool (snd y) (snd x) then x :: sorted
      else y :: insert_by_score x sorted'
  end.

Definition sort_by_score (suggestions : list (str * Q)) : list (str * Q) :=
  fold_right insert_by_score [] suggestions.

(** The relevance score of one path for the keywords of the query. *)
Definition relevance (keywords : list str) (file_path : str) : Q :=
  let file_lower := lower file_path in
  let score :=
    fold_left (fun sc keyword =>
                 if contains keyword file_lower then (sc + 1)%Q else sc)
              keywords 0%Q in
  let score :=
    if contains (of_string "test") file_lower
       || contains (of_string "spec") file_lower
    then (score + (5 # 10))%Q else score in
  if contains (of_string "config") file_lower
     || contains (of_string "setup") file_lower
  then (score + (3 # 10))%Q else score.

(** [guess_module_path], from the keywords that the regular expression finds
    in the query and the paths that [git ls-files] lists. *)
Definition guess_module_path (keywords : list str) (paths : list str)
  : list (str * Q) :=
  let suggestions :=
    List.filter (fun suggestion => negb (Qle_bool (snd suggestion) 0))
      (map (fun file_path => (file_path, relevance keywords file_path))
           (List.filter (fun file_path => negb (length file_path =? 0)%nat)
                        paths)) in
  firstn 10 (sort_by_score suggestions).

End MapWorker.

(** * Ingest worker (workers/ingest-worker/worker.py) *)
Module Ingest.
Import Text.

Definition error_patterns : list str :=
  map of_string
    ["Error:"; "Exception:"; "Failed:"; "Traceback";
     "ERROR"; "WARN"; "WARNING"; "FATAL"]%string.

(** [any(pattern.lower() in line_lower for pattern in error_patterns)] *)
Definition is_relevant (line : str) : bool :=
  let line_lower := lower line in
  existsb (fun pattern => contains (lower pattern) line_lower) error_patterns.

(** The loop [for line in lines] filling [relevant_lines]. *)
Fixpoint collect_relevant (lines relevant_lines : list str) : list str :=
  match lines with
  | [] => relevant_lines
  | line :: lines' =>
      if is_relevant line
      then collect_relevant lines' (relevant_lines ++ [strip line])
      else collect_relevant lines' relevant_lines
  end.

(** [extract_text_from_log], on the text read from the file. *)
Definition extract_text_from_log (content : str) : str :=
  let lines := split_lines content in
  let relevant_lines := collect_relevant lines [] in
  match relevant_lines with
  | [] => firstn 1000 content
  | _ :: _ => join_lines (firstn 50 relevant_lines)
  end.

(** The extractor as the specification words it: the lines that contain one
    of the severity tokens, compared without regard to case, and the first
    1000 characters when there is none. *)
Definition severity_tokens : list str :=
  map of_string
    ["Error"; "Exception"; "Failed"; "Traceback";
     "ERROR"; "WARN"; "WARNING"; "FATAL"]%string.

Definition spec_selected (line : str) : bool :=
  existsb (fun token => contains (lower token) (lower line)) severity_tokens.

Definition spec_log_output (content : str) : str :=
  match List.filter spec_selected (split_lines content) with
  | [] => firstn 1000 content
  | selected => join_lines selected
  end.

(** ** Appending the extracted text to the report *)

(** One result of [process_signal]; [extracted_text] is [None] when the
    result has no such key (the download or the extraction failed). *)
Record extracted_item : Type := mk_extracted_item {
  signal_id : str;
  extracted_text : option str
}.

(** [f"\n--- Signal {signal_id} ---\n{text}"] with [text] cut at 2000
    characters, for an item that has a text that is not empty. *)
Definition frame (item : extracted_item) : option str :=
  match extracted_text item with
  | None | Some [] => None
  | Some text =>
      Some (newline :: of_string "--- Signal " ++ signal_id item
            ++ of_string " ---" ++ newline :: firstn 2000 text)
  end.

(** The loop [for item in extracted_data] filling [updates]. *)
Fixpoint collect_updates (extracted_data : list extracted_item)
    (updates : list str) : list str :=
  match extracted_data with
  | [] => updates
  | item :: extracted_data' =>
      match frame item with
      | Some update => collect_updates extracted_data' (updates ++ [update])
      | None => collect_updates extracted_data' updates
      end
  end.

(** [update_report_with_extracted_text], on the table of the descriptions of
    the reports; a description can be null. *)
Definition update_report_with_extracted_text (report_id : string)
    (extracted_data : list extracted_item)
    (reports : gmap string (option str)) : gmap string (option str) :=
  match reports !! report_id with
  | None => reports
  | Some result =>
      let current_description := default [] result in
      match collect_updates extracted_data [] with
      | [] => reports
      | updates =>
          <[ report_id := Some (current_description ++ join_lines updates) ]>
            reports
      end
  end.

End Ingest.

(** * Signal worker: from a log entry to an error signature *)
Module SignalLog.
Import Text Signal.

(** The fields of a parsed log entry that the extraction reads.  [level] is
    [None] when the key is missing, [details] when its value is [None]. *)
Record log_entry : Type := mk_log_entry {
  line_number : nat;
  level : option string;
  entry_message : string;
  entry_details : option string
}.

Definition mentions (keyword : string) (text_lower : str) : bool :=
  contains (of_string keyword) text_lower.

(** [_classify_error_type] *)
Definition _classify_error_type (text : str) : string :=
  let text_lower := lower text in
  if mentions "syntaxerror" text_lower || mentions "syntax error" text_lower
  then "SyntaxError"
  else if mentions "referenceerror" text_lower
          || mentions "reference error" text_lower
  then "ReferenceError"
  else if mentions "typeerror" text_lower || mentions "type error" text_lower
  then "TypeError"
  else if mentions "network" text_lower || mentions "connection" text_lower
  then "NetworkError"
  else if mentions "database" text_lower || mentions "sql" text_lower
  then "DatabaseError"
  else if mentions "authentication" text_lower
          || mentions "unauthorized" text_lower
  then "AuthenticationError"
  else if mentions "timeout" text_lower
  then "TimeoutError"
  else "GenericError".

(** [_calculate_severity]: [error_entry.get('level', 'ERROR')] decides. *)
Definition _calculate_severity (error_entry : log_entry) : string :=
  let level := default "ERROR"%string (level error_entry) in
  if decide (level = "ERROR"%string) then "high"
  else if decide (level = "WARN"%string \/ level = "WARNING"%string)
  then "medium"
  else "low".

(** [f"{message} {details}".strip()]; a [None] is printed as [None]. *)
Definition full_text (error_entry : log_entry) : str :=
  strip (of_string (entry_message error_entry) ++ of_string " "
         ++ of_string (default "None"%string (entry_details error_entry))).

Section Extraction.
(** The MD5 digest and the two extractions by regular expression are taken
    as they come. *)
Variable md5_hexdigest : str -> string.
Variable _extract_stack_trace : str -> option string.
Variable _extract_key_components : str -> list string.

(** [_extract_error_signature] *)
Definition _extract_error_signature (error_entry : log_entry) : signature :=
  let text := full_text error_entry in
  {| signature_hash := md5_hexdigest text;
     error_type := _classify_error_type text;
     message := entry_message error_entry;
     details := entry_details error_entry;
     stack_trace := _extract_stack_trace text;
     key_components := _extract_key_components text;
     severity := _calculate_severity error_entry;
     frequency := 1;
     cluster_id := None |}.

End Extraction.

End SignalLog.

(** * Properties of the Validate worker *)
Module ValidateFacts.
Import Validate.

Definition has_pass (R : list run_result) : Prop :=
  exists r, In r R /\ passed r = true.

Definition has_fail (R : list run_result) : Prop :=
  exists r, In r R /\ passed r = false.

Lemma results_binary_range (R : list run_result) :
  (list_to_set (results_binary R) : gset Z) ⊆ {[ 0; 1 ]}.
Proof.
  induction R as [|r R IH]; simpl; [set_solver|].
  destruct (passed r); set_solver.
Qed.

Lemma one_in_binary (R : list run_result) :
  1 ∈ (list_to_set (results_binary R) : gset Z) <-> has_pass R.
Proof.
  unfold has_pass. induction R as [|r R IH]; simpl.
  - split; [set_solver | intros (r & [] & _)].
  - rewrite elem_of_union, IH, elem_of_singleton. split.
    + intros [H | (r' & Hin & Hp)]; [|eauto].
      destruct (passed r) eqn:E; [eauto | discriminate].
    + intros (r' & [-> | Hin] & Hp); [rewrite Hp; auto | eauto].
Qed.

Lemma zero_in_binary (R : list run_result) :
  0 ∈ (list_to_set (results_binary R) : gset Z) <-> has_fail R.
Proof.
  unfold has_fail. induction R as [|r R IH]; simpl.
  - split; [set_solver | intros (r & [] & _)].
  - rewrite elem_of_union, IH, elem_of_singleton. split.
    + intros [H | (r' & Hin & Hp)]; [|eauto].
      destruct (passed r) eqn:E; [discriminate | eauto].
    + intros (r' & [-> | Hin] & Hp); [rewrite Hp; auto | eauto].
Qed.

(** [len(set(results_binary)) > 1] holds exactly for a mixed sequence. *)
Lemma mixed_results_iff (R : list run_result) :
  (1 < size (list_to_set (results_binary R) : gset Z))%nat <->
  has_pass R /\ has_fail R.
Proof.
  rewrite <- one_in_binary, <- zero_in_binary.
  pose proof (results_binary_range R) as Hsub.
  set (s := list_to_set (results_binary R) : gset Z) in *.
  split.
  - intros Hsz. split.
    + destruct (decide (1 ∈ s)) as [|Hn]; [done|].
      assert (s ⊆ {[ 0 ]}) as Hs by set_solver.
      apply subseteq_size in Hs. rewrite size_singleton in Hs. lia.
    + destruct (decide (0 ∈ s)) as [|Hn]; [done|].
      assert (s ⊆ {[ 1 ]}) as Hs by set_solver.
      apply subseteq_size in Hs. rewrite size_singleton in Hs. lia.
  - intros [H1 H0].
    assert (({[ 0 ]} ∪ {[ 1 ]} : gset Z) ⊆ s) as Hs by set_solver.
    apply subseteq_size in Hs.
    rewrite size_union in Hs by set_solver.
    rewrite !size_singleton in Hs. lia.
Qed.

Lemma classify_stable (rate : Q) :
  (rate == 1)%Q -> classify rate = stable.
Proof.
  intros H. unfold classify.
  apply Qeq_bool_iff in H. now rewrite H.
Qed.

Lemma classify_mostly_stable (rate : Q) :
  ~ (rate == 1)%Q -> (8 # 10 <= rate)%Q -> classify rate = mostly_stable.
Proof.
  intros Hne Hle. unfold classify.
  destruct (Qeq_bool rate 1) eqn:E; [apply Qeq_bool_iff in E; contradiction|].
  apply Qle_bool_iff in Hle. now rewrite Hle.
Qed.

Lemma Qle_bool_false (a b : Q) : (b < a)%Q -> Qle_bool a b = false.
Proof.
  intros H. destruct (Qle_bool a b) eqn:E; [|reflexivity].
  apply Qle_bool_iff in E. exfalso. exact (Qlt_not_le _ _ H E).
Qed.

Lemma Qeq_bool_false_lt (a b : Q) : (a < b)%Q -> Qeq_bool a b = false.
Proof.
  intros H. destruct (Qeq_bool a b) eqn:E; [|reflexivity].
  apply Qeq_bool_iff in E. rewrite E in H. exfalso. exact (Qlt_irrefl _ H).
Qed.

Lemma classify_unstable (rate : Q) :
  (rate < 8 # 10)%Q -> (5 # 10 <= rate)%Q -> classify rate = unstable.
Proof.
  intros Hlt Hle. unfold classify.
  rewrite Qeq_bool_false_lt by (eapply Qlt_trans; [exact Hlt | reflexivity]).
  rewrite (Qle_bool_false _ _ Hlt).
  apply Qle_bool_iff in Hle. now rewrite Hle.
Qed.

Lemma classify_very_unstable (rate : Q) :
  (rate < 5 # 10)%Q -> classify rate = very_unstable.
Proof.
  intros Hlt. unfold classify.
  rewrite Qeq_bool_false_lt by (eapply Qlt_trans; [exact Hlt | reflexivity]).
  rewrite Qle_bool_false by (eapply Qlt_trans; [exact Hlt | reflexivity]).
  now rewrite (Qle_bool_false _ _ Hlt).
Qed.

Lemma Qlen_cons {A : Type} (x : A) (l : list A) :
  (Qlen (x :: l) == 1 + Qlen l)%Q.
Proof.
  unfold Qlen. simpl length. rewrite Nat2Z.inj_succ. unfold Z.succ.
  rewrite inject_Z_plus. ring.
Qed.

Lemma Qlen_nonzero {A : Type} (l : list A) : l <> [] -> ~ (Qlen l == 0)%Q.
Proof.
  destruct l as [|x l]; [contradiction|]. intros _.
  unfold Qlen, Qeq. simpl. lia.
Qed.

(** The squared deviations of a 0/1 sequence from any [m], summed. *)
Lemma Qsum_squared_deviations (l : list Q) (m : Q) :
  (forall x, In x l -> (x * x == x)%Q) ->
  (Qsum (map (fun x => (x - m) * (x - m)) l)
   == Qsum l - 2 * m * Qsum l + Qlen l * (m * m))%Q.
Proof.
  induction l as [|x l IH]; intros Hbin.
  - unfold Qlen. simpl. ring.
  - simpl map. simpl Qsum. rewrite IH by (intros y Hy; apply Hbin; now right).
    rewrite Qlen_cons.
    assert (Hx : (x * x == x)%Q) by (apply Hbin; now left).
    assert (Hsq : ((x - m) * (x - m) == x - 2 * m * x + m * m)%Q).
    { rewrite <- Hx at 3. ring. }
    rewrite Hsq. ring.
Qed.

(** The population variance of a 0/1 sequence of mean [p] is [p (1 - p)]. *)
Lemma np_var_binary (l : list Q) :
  l <> [] ->
  (forall x, In x l -> (x * x == x)%Q) ->
  (np_var l == Qmean l * (1 - Qmean l))%Q.
Proof.
  intros Hne Hbin. unfold np_var. cbv zeta. unfold Qmean at 1.
  rewrite Qsum_squared_deviations by exact Hbin.
  unfold Qlen at 2. rewrite length_map. fold (Qlen l).
  unfold Qmean. pose proof (Qlen_nonzero l Hne) as Hn.
  field. exact Hn.
Qed.

Lemma Qsum_results_binary (R : list run_result) :
  (Qsum (map inject_Z (results_binary R)) == Qlen (List.filter passed R))%Q.
Proof.
  induction R as [|r R IH]; [reflexivity|].
  simpl. destruct (passed r); simpl Qsum; rewrite IH.
  - rewrite Qlen_cons. reflexivity.
  - ring.
Qed.

Lemma results_binary_idempotent (R : list run_result) :
  forall x, In x (map inject_Z (results_binary R)) -> (x * x == x)%Q.
Proof.
  intros x Hx. apply in_map_iff in Hx. destruct Hx as (z & <- & Hz).
  unfold results_binary in Hz. apply in_map_iff in Hz.
  destruct Hz as (r & <- & _). destruct (passed r); reflexivity.
Qed.

(** The variance of the pass sequence, in terms of the pass rate. *)
Lemma np_var_pass_rate (R : list run_result) :
  R <> [] ->
  let rate := (Qlen (List.filter passed R) / Qlen R)%Q in
  (np_var (map inject_Z (results_binary R)) == rate * (1 - rate))%Q.
Proof.
  intros Hne rate.
  rewrite np_var_binary.
  - assert (Hmean : (Qmean (map inject_Z (results_binary R)) == rate)%Q).
    { unfold Qmean. rewrite Qsum_results_binary. subst rate.
      unfold Qlen at 2. unfold results_binary. rewrite !length_map.
      reflexivity. }
    rewrite Hmean. reflexivity.
  - destruct R; [contradiction | discriminate].
  - apply results_binary_idempotent.
Qed.

(** C1. For a non-empty list of run results, [stability_score] is the number of
    passed runs divided by the number of runs; [flaky_score] is the population
    variance of the 0/1 pass sequence when the sequence holds both a pass and a
    fail, and 0 otherwise; the class is [stable] at rate 1, [mostly_stable]
    from 0.8, [unstable] from 0.5 and [very_unstable] below.  For a rate [p]
    of a mixed sequence that variance is [p (1 - p)]. *)
Theorem stability_metrics_correct (R : list run_result) :
  R <> [] ->
  let m := _calculate_stability_metrics R in
  let rate := (Qlen (List.filter passed R) / Qlen R)%Q in
  (stability_score m == rate)%Q /\
  (has_pass R /\ has_fail R ->
     (flaky_score m == np_var (map inject_Z (results_binary R)))%Q) /\
  (~ (has_pass R /\ has_fail R) -> (flaky_score m == 0)%Q) /\
  ((rate == 1)%Q -> stability_class m = Some stable) /\
  (~ (rate == 1)%Q -> (8 # 10 <= rate)%Q ->
     stability_class m = Some mostly_stable) /\
  ((rate < 8 # 10)%Q -> (5 # 10 <= rate)%Q ->
     stability_class m = Some unstable) /\
  ((rate < 5 # 10)%Q -> stability_class m = Some very_unstable) /\
  (has_pass R /\ has_fail R -> (flaky_score m == rate * (1 - rate))%Q).
Proof.
  intros Hne. destruct R as [|r0 R0]; [contradiction|].
  set (R := r0 :: R0) in *.
  cbv zeta. unfold _calculate_stability_metrics. fold R.
  change (match R with [] => _ | _ :: _ => ?b end) with b.
  cbn [stability_score flaky_score stability_class].
  split; [|split; [|split; [|split; [|split; [|split; [|split]]]]]].
  - reflexivity.
  - intros Hmix. apply mixed_results_iff in Hmix.
    destruct (decide _); [reflexivity | contradiction].
  - intros Hmix. rewrite <- mixed_results_iff in Hmix.
    destruct (decide _); [contradiction | reflexivity].
  - intros H. f_equal. now apply classify_stable.
  - intros H1 H2. f_equal. now apply classify_mostly_stable.
  - intros H1 H2. f_equal. now apply classify_unstable.
  - intros H. f_equal. now apply classify_very_unstable.
  - intros Hmix. apply mixed_results_iff in Hmix.
    destruct (decide _); [|contradiction].
    exact (np_var_pass_rate R Hne).
Qed.

(** ** Delta minimization *)

Section DeltaMinimizationFacts.
Context {A : Type} `{EqDecision A}.
Variable still_fail : list A -> bool.

Lemma first_removable_tested (steps : list A) (subsets : list (list A))
    (remaining : list A) :
  first_removable still_fail steps subsets = Some remaining ->
  still_fail remaining = true /\
  exists subset, In subset subsets /\ remaining = without steps subset.
Proof.
  induction subsets as [|subset subsets IH]; simpl; [discriminate|].
  destruct (still_fail (without steps subset)) eqn:E.
  - intros [= <-]. split; [exact E|]. exists subset. auto.
  - intros Hrest. destruct (IH Hrest) as [Ht (d & Hin & Heq)].
    split; [exact Ht|]. exists d. auto.
Qed.

Lemma loop_body_reduced (steps : list A) (n : nat)
    (remaining : list A) (n' : nat) :
  loop_body still_fail steps n = Reduced remaining n' ->
  still_fail remaining = true /\
  exists subset, remaining = without steps subset.
Proof.
  unfold loop_body.
  destruct (_split_into_subsets steps n) as [subsets|]; [|discriminate].
  destruct (first_removable still_fail steps subsets) as [r|] eqn:E;
    [|discriminate].
  intros [= <- _]. apply first_removable_tested in E.
  destruct E as [Ht (d & _ & Heq)]. eauto.
Qed.

Lemma minimization_loop_unfold (fuel : nat) (steps : list A) (n : nat) :
  minimization_loop still_fail (S fuel) steps n =
  if (2 <=? length steps)%nat then
    match loop_body still_fail steps n with
    | Reduced remaining_steps n' =>
        minimization_loop still_fail fuel remaining_steps n'
    | Regrouped n' => minimization_loop still_fail fuel steps n'
    | Failed => Raised
    end
  else Returned steps.
Proof. reflexivity. Qed.

(** A returned list is either one the test was run on and failed, or the
    list the loop was entered with, too short to be looked at. *)
Lemma minimization_loop_returned (fuel : nat) :
  forall (steps : list A) (n : nat) (S' : list A),
    minimization_loop still_fail fuel steps n = Returned S' ->
    (2 <= length steps)%nat \/ still_fail steps = true ->
    still_fail S' = true.
Proof.
  induction fuel as [|fuel IH]; intros steps n S'; [discriminate|].
  rewrite minimization_loop_unfold.
  destruct (2 <=? length steps)%nat eqn:Hlen.
  - destruct (loop_body still_fail steps n) as [r n'| n' |] eqn:Hbody.
    + intros Hret _. apply (IH _ _ _ Hret). right.
      apply loop_body_reduced in Hbody. tauto.
    + intros Hret _. apply (IH _ _ _ Hret). left.
      now apply Nat.leb_le in Hlen.
    + discriminate.
  - intros [= <-] [Hge | Ht]; [|exact Ht].
    apply Nat.leb_gt in Hlen. lia.
Qed.

(** A pass of the loop that leaves both [steps] and [n] as they were is
    repeated for ever: the loop has no [break]. *)
Lemma minimization_loop_stuck (steps : list A) (n : nat) :
  (2 <= length steps)%nat ->
  loop_body still_fail steps n = Regrouped n ->
  forall fuel, minimization_loop still_fail fuel steps n = OutOfFuel.
Proof.
  intros Hlen Hbody fuel. induction fuel as [|fuel IH]; [reflexivity|].
  rewrite minimization_loop_unfold, Hbody.
  apply Nat.leb_le in Hlen. now rewrite Hlen.
Qed.

(** C2. When the minimizer, started on at least two steps, returns a step
    list, the test on that list fails; and every reduction a pass of the
    loop keeps is one on whose remaining steps the test failed. *)
Theorem minimization_sound (fuel : nat) (S S' : list A) :
  (2 <= length S)%nat ->
  _delta_minimization_algorithm still_fail fuel S = Returned S' ->
  still_fail S' = true /\
  (forall steps n remaining n',
      loop_body still_fail steps n = Reduced remaining n' ->
      still_fail remaining = true /\
      exists subset, remaining = without steps subset).
Proof.
  intros Hlen Hret. split.
  - eapply minimization_loop_returned; [exact Hret | now left].
  - intros steps n remaining n'. apply loop_body_reduced.
Qed.

Lemma test_steps_still_fail_nonempty (steps : list A) :
  _test_steps_still_fail steps = true <-> steps <> [].
Proof.
  unfold _test_steps_still_fail, Qlen.
  rewrite negb_true_iff, <- not_true_iff_false, Qle_bool_iff.
  unfold Qle, Qmult, inject_Z. simpl.
  destruct steps as [|a steps]; simpl length.
  - split; [intros Hn; exfalso; apply Hn; simpl; lia | congruence].
  - split; [discriminate | intros _]. lia.
Qed.

End DeltaMinimizationFacts.

(** The runs of a five-run cycle with outcomes pass, pass, fail, pass, fail. *)
Definition seed_run (i : Z) (p : bool) : run_result :=
  {| run_number := i; passed := p; duration_ms := 1000;
     logs := ""; video_url := ""; trace_url := "" |}.

Definition seed_runs : list run_result :=
  [seed_run 1 true; seed_run 2 true; seed_run 3 false;
   seed_run 4 true; seed_run 5 false].

Lemma stability_metrics_correct_witness :
  seed_runs <> [] /\
  (stability_score (_calculate_stability_metrics seed_runs) == 6 # 10)%Q /\
  (flaky_score (_calculate_stability_metrics seed_runs) == 24 # 100)%Q /\
  stability_class (_calculate_stability_metrics seed_runs) = Some unstable.
Proof.
  assert (Hne : seed_runs <> []) by discriminate.
  destruct (stability_metrics_correct seed_runs Hne)
    as (Hs & Hf & _ & _ & _ & Hu & _).
  split; [exact Hne|]. split; [|split].
  - rewrite Hs. vm_compute. reflexivity.
  - rewrite Hf.
    + vm_compute. reflexivity.
    + split; [exists (seed_run 1 true) | exists (seed_run 3 false)];
        (split; [simpl; tauto | reflexivity]).
  - apply Hu; vm_compute; congruence.
Defined.

(** The test used in the examples: the failure needs step [3]. *)
Definition needs_3 (steps : list nat) : bool := bool_decide (3%nat ∈ steps).

Lemma minimization_sound_witness :
  (2 <= length [1; 2; 3; 4]%nat)%nat /\
  _delta_minimization_algorithm needs_3 10 [1; 2; 3; 4]%nat = Returned [3%nat] /\
  needs_3 [3%nat] = true.
Proof.
  split; [simpl; lia|]. split; [vm_compute; reflexivity|].
  apply (minimization_sound needs_3 10 [1; 2; 3; 4]%nat [3%nat]).
  - simpl; lia.
  - vm_compute; reflexivity.
Defined.

(** C3, on the code: with two steps and a test that passes on every reduced
    list, no number of passes through the loop makes the minimizer return.
    The partition count has reached the number of steps, no removal fails,
    and the next pass starts from the same [steps] and [n]. *)
Theorem minimization_never_returns :
  forall fuel,
    _delta_minimization_algorithm (fun _ : list nat => false) fuel [1; 2]%nat
    = OutOfFuel.
Proof.
  intros fuel. unfold _delta_minimization_algorithm.
  apply minimization_loop_stuck; [simpl; lia | reflexivity].
Qed.

(** The same on the source's own predicate, for two equal steps: removing
    either subset removes both steps, and the predicate is false on the
    empty list. *)
Lemma minimization_never_returns_on_duplicates :
  forall fuel,
    _delta_minimization_algorithm _test_steps_still_fail fuel [7; 7]%nat
    = OutOfFuel.
Proof.
  intros fuel. unfold _delta_minimization_algorithm.
  apply minimization_loop_stuck; [simpl; lia | vm_compute; reflexivity].
Qed.

#[local] Ltac step_body t :=
  let v := eval vm_compute in t in change t with v.

(** Steps [a, b, c, d] = [1, 2, 3, 4] whose failure needs [b] and [d]: the
    loop reaches [[b, d]] after three passes and stays there. *)
Definition needs_2_and_4 (steps : list nat) : bool :=
  bool_decide (2%nat ∈ steps) && bool_decide (4%nat ∈ steps).

Lemma minimization_reaches_b_d_and_loops :
  forall fuel,
    _delta_minimization_algorithm needs_2_and_4 fuel [1; 2; 3; 4]%nat
    = OutOfFuel.
Proof.
  intros fuel. unfold _delta_minimization_algorithm.
  destruct fuel as [|[|[|fuel]]]; try reflexivity.
  rewrite minimization_loop_unfold.
  step_body (loop_body needs_2_and_4 [1; 2; 3; 4]%nat 2).
  cbn [length Nat.leb].
  rewrite minimization_loop_unfold.
  step_body (loop_body needs_2_and_4 [1; 2; 3; 4]%nat 4).
  cbn [length Nat.leb].
  rewrite minimization_loop_unfold.
  step_body (loop_body needs_2_and_4 [2; 3; 4]%nat 3).
  cbn [length Nat.leb].
  apply minimization_loop_stuck; [simpl; lia | vm_compute; reflexivity].
Qed.

(** ** Persistence *)

Lemma metrics_class_some (results : list run_result) :
  results <> [] ->
  exists class,
    stability_class (_calculate_stability_metrics results) = Some class.
Proof.
  destruct results as [|r results]; [contradiction|].
  intros _. simpl. eauto.
Qed.

(** X27. After a validation cycle with at least one executed run, whatever
    the outcomes of the runs, the persistence step leaves the repro with
    status [validated], appends exactly one run row per run result, each
    carrying the repro id and the run's iteration number, and the resulting
    [repros] table is the same for any two lists of outcomes. *)
Theorem save_marks_validated (now : Z) (repro_id : string)
    (results : list run_result) (db : store) (r : repro_row) :
  results <> [] ->
  repros db !! repro_id = Some r ->
  let db' := _save_validation_results now repro_id
               (summarize repro_id results) db in
  status <$> repros db' !! repro_id = Some validated /\
  runs db' = runs db ++ map (run_row_of repro_id now) results /\
  length (runs db') = (length (runs db) + length results)%nat /\
  (forall row, In row (map (run_row_of repro_id now) results) ->
     row_repro_id row = repro_id /\
     exists res, In res results /\ iteration_no row = run_number res /\
                 row_passed row = passed res) /\
  (forall results' : list run_result,
     results' <> [] ->
     repros (_save_validation_results now repro_id
               (summarize repro_id results') db) = repros db').
Proof.
  intros Hne Hrow db'.
  destruct (metrics_class_some results Hne) as [class Hclass].
  assert (Hdb' : repros db' =
                 alter (λ _, {| status := validated; updated_at := now |})
                       repro_id (repros db)
                 /\ runs db' = runs db ++ map (run_row_of repro_id now) results).
  { subst db'. unfold _save_validation_results. cbn [stability_analysis summarize].
    rewrite Hclass. split; reflexivity. }
  destruct Hdb' as [Hrepros Hruns].
  split; [|split; [|split; [|split]]].
  - rewrite Hrepros, lookup_alter_eq, Hrow. reflexivity.
  - exact Hruns.
  - rewrite Hruns, length_app, length_map. reflexivity.
  - intros row Hin. apply in_map_iff in Hin. destruct Hin as (res & <- & Hres).
    split; [reflexivity|]. exists res. auto.
  - intros results' Hne'.
    destruct (metrics_class_some results' Hne') as [class' Hclass'].
    rewrite Hrepros. unfold _save_validation_results.
    cbn [stability_analysis summarize]. rewrite Hclass'. reflexivity.
Qed.

Definition seed_store : store :=
  {| repros := {[ "repro-1"%string := {| status := created; updated_at := 0 |} ]};
     runs := [];
     cache := ∅ |}.

Definition all_failed : list run_result :=
  [seed_run 1 false; seed_run 2 false].

Lemma save_marks_validated_witness :
  all_failed <> [] /\
  repros seed_store !! "repro-1"%string
    = Some {| status := created; updated_at := 0 |} /\
  status <$> repros (_save_validation_results 7 "repro-1"
                       (summarize "repro-1" all_failed) seed_store)
             !! "repro-1"%string = Some validated.
Proof.
  assert (Hne : all_failed <> []) by discriminate.
  assert (Hrow : repros seed_store !! "repro-1"%string
                 = Some {| status := created; updated_at := 0 |})
    by (vm_compute; reflexivity).
  split; [exact Hne|]. split; [exact Hrow|].
  exact (proj1 (save_marks_validated 7 "repro-1" all_failed seed_store _
                  Hne Hrow)).
Defined.

(** With no run at all the stability record has no class, the cache payload
    cannot be built, and the transaction is never committed. *)
Lemma save_without_runs_writes_nothing (now : Z) (repro_id : string)
    (db : store) :
  _save_validation_results now repro_id (summarize repro_id []) db = db.
Proof. reflexivity. Qed.

(** C10, where the code departs from it.  A cycle asked for zero runs
    completes with an empty list of run results.  Its stability record comes
    from the branch of [_calculate_stability_metrics] for an empty list, which
    has no [stability_class]; building the cache payload raises, the
    transaction is not committed, and a repro that was [created] stays
    [created]: the completed cycle has not set it to [validated].  Any cycle
    with one run or more, on the same store, does. *)
Theorem zero_run_cycle_not_validated (now : Z) (repro_id : string)
    (db : store) (r : repro_row) :
  repros db !! repro_id = Some r ->
  status r = created ->
  let db' := _save_validation_results now repro_id
               (summarize repro_id []) db in
  run_results (summarize repro_id []) = [] /\
  stability_class (stability_analysis (summarize repro_id [])) = None /\
  db' = db /\
  status <$> repros db' !! repro_id = Some created /\
  status <$> repros db' !! repro_id <> Some validated /\
  (forall results : list run_result,
      results <> [] ->
      status <$> repros (_save_validation_results now repro_id
                           (summarize repro_id results) db) !! repro_id
      = Some validated).
Proof.
  intros Hrow Hstatus db'.
  assert (Hdb : db' = db) by reflexivity.
  split; [reflexivity|]. split; [reflexivity|]. split; [exact Hdb|].
  assert (Hcreated : status <$> repros db' !! repro_id = Some created)
    by (rewrite Hdb, Hrow; simpl; now rewrite Hstatus).
  split; [exact Hcreated|]. split; [rewrite Hcreated; discriminate|].
  intros results Hne.
  destruct (metrics_class_some results Hne) as [class Hclass].
  unfold _save_validation_results. cbn [stability_analysis summarize].
  rewrite Hclass. cbn [repros]. now rewrite lookup_alter_eq, Hrow.
Qed.

Lemma zero_run_cycle_not_validated_witness :
  repros seed_store !! "repro-1"%string
    = Some {| status := created; updated_at := 0 |} /\
  _save_validation_results 7 "repro-1" (summarize "repro-1" []) seed_store
    = seed_store /\
  status <$> repros (_save_validation_results 7 "repro-1"
                       (summarize "repro-1" []) seed_store)
             !! "repro-1"%string = Some created.
Proof.
  assert (Hrow : repros seed_store !! "repro-1"%string
                 = Some {| status := created; updated_at := 0 |})
    by (vm_compute; reflexivity).
  destruct (zero_run_cycle_not_validated 7 "repro-1" seed_store _
              Hrow eq_refl) as (_ & _ & Hdb & Hcreated & _).
  split; [exact Hrow|]. split; [exact Hdb | exact Hcreated].
Defined.

(** ** More on the splitting into subsets and on the minimizer *)

Section SubsetFacts.
Context {A : Type}.

Lemma slices_concat (size : nat) :
  forall (bound : nat) (items : list A),
    (1 <= size)%nat -> (length items <= bound)%nat ->
    concat (slices bound size items) = items.
Proof.
  induction bound as [|bound IH]; intros items Hsize Hlen.
  - destruct items; [reflexivity | simpl in Hlen; lia].
  - destruct items as [|a items]; [reflexivity|].
    cbn [slices concat]. rewrite IH; [apply firstn_skipn | exact Hsize |].
    rewrite length_skipn. simpl length in *. lia.
Qed.

Lemma slices_bounded (size : nat) :
  forall (bound : nat) (items : list A),
    (1 <= size)%nat ->
    Forall (fun subset => subset <> [] /\ (length subset <= size)%nat)
           (slices bound size items).
Proof.
  induction bound as [|bound IH]; intros items Hsize; [constructor|].
  destruct items as [|a items]; [constructor|].
  cbn [slices]. constructor; [|apply IH; exact Hsize].
  split.
  - destruct size; [lia | discriminate].
  - rewrite length_firstn. lia.
Qed.

(** X1. What [_split_into_subsets] returns is a partition of [items] into
    consecutive, non-empty subsets of at most [len(items) // n] elements. *)
Theorem split_into_subsets_partition (items : list A) (n : nat)
    (subsets : list (list A)) :
  _split_into_subsets items n = Some subsets ->
  concat subsets = items /\
  Forall (fun subset =>
            subset <> [] /\ (length subset <= length items / n)%nat)
         subsets.
Proof.
  unfold _split_into_subsets. cbv zeta.
  destruct (length items / n)%nat as [|k] eqn:Hsize; [discriminate|].
  intros [= <-]. split.
  - apply slices_concat; lia.
  - apply slices_bounded. lia.
Qed.

(** X2. [_split_into_subsets] raises exactly when it is asked for more
    subsets than there are items, or for none. *)
Theorem split_into_subsets_raises (items : list A) (n : nat) :
  _split_into_subsets items n = None <-> n = 0%nat \/ (length items < n)%nat.
Proof.
  unfold _split_into_subsets. cbv zeta.
  destruct (Nat.eq_dec n 0%nat) as [-> | Hn].
  - simpl. tauto.
  - pose proof (Nat.div_small_iff (length items) n Hn) as Hsmall.
    destruct (length items / n)%nat as [|k] eqn:Hsize.
    + split; [intros _; right; now apply Hsmall | reflexivity].
    + split; [discriminate|]. intros [H0 | Hlt]; [contradiction|].
      apply Hsmall in Hlt. discriminate.
Qed.

End SubsetFacts.

Lemma split_into_subsets_partition_witness :
  _split_into_subsets [1; 2; 3; 4; 5]%nat 2 = Some [[1; 2]; [3; 4]; [5]]%nat /\
  concat [[1; 2]; [3; 4]; [5]]%nat = [1; 2; 3; 4; 5]%nat.
Proof.
  assert (H : _split_into_subsets [1; 2; 3; 4; 5]%nat 2
              = Some [[1; 2]; [3; 4]; [5]]%nat) by reflexivity.
  split; [exact H|].
  exact (proj1 (split_into_subsets_partition _ _ _ H)).
Defined.

Section MinimizerFacts.
Context {A : Type} `{EqDecision A}.
Variable still_fail : list A -> bool.

Lemma without_sublist (steps subset : list A) :
  without steps subset `sublist_of` steps.
Proof. unfold without. apply sublist_filter. Qed.

Lemma minimization_loop_sublist (fuel : nat) :
  forall (steps : list A) (n : nat) (S' : list A),
    minimization_loop still_fail fuel steps n = Returned S' ->
    S' `sublist_of` steps /\ (length S' < 2)%nat.
Proof.
  induction fuel as [|fuel IH]; intros steps n S'; [discriminate|].
  rewrite minimization_loop_unfold.
  destruct (2 <=? length steps)%nat eqn:Hlen.
  - destruct (loop_body still_fail steps n) as [r n'| n' |] eqn:Hbody.
    + intros Hret. apply IH in Hret. destruct Hret as [Hsub Hshort].
      split; [|exact Hshort].
      apply loop_body_reduced in Hbody. destruct Hbody as [_ [d ->]].
      etrans; [exact Hsub | apply without_sublist].
    + apply IH.
    + discriminate.
  - intros [= <-]. apply Nat.leb_gt in Hlen. split; [reflexivity | exact Hlen].
Qed.

(** X3. Whatever the test, a list the minimizer returns has fewer than two
    steps, all taken from the input in their original order; and on an input
    of fewer than two steps the minimizer does return, before any pass of its
    loop, the input as it is. *)
Theorem minimization_returns_sublist (fuel : nat) (steps : list A) :
  (forall steps',
      _delta_minimization_algorithm still_fail fuel steps = Returned steps' ->
      steps' `sublist_of` steps /\ (length steps' < 2)%nat) /\
  ((length steps < 2)%nat ->
   _delta_minimization_algorithm still_fail (S fuel) steps = Returned steps).
Proof.
  split.
  - intros steps' Hret. unfold _delta_minimization_algorithm in Hret.
    exact (minimization_loop_sublist _ _ _ _ Hret).
  - intros Hlt. unfold _delta_minimization_algorithm.
    rewrite minimization_loop_unfold.
    apply Nat.leb_gt in Hlt. now rewrite Hlt.
Qed.

End MinimizerFacts.

Lemma minimization_returns_sublist_witness :
  (_delta_minimization_algorithm needs_3 10 [1; 2; 3; 4]%nat = Returned [3%nat] /\
   [3%nat] `sublist_of` [1; 2; 3; 4]%nat) /\
  ((length [7%nat] < 2)%nat /\
   _delta_minimization_algorithm needs_3 1 [7%nat] = Returned [7%nat]).
Proof.
  assert (H : _delta_minimization_algorithm needs_3 10 [1; 2; 3; 4]%nat
              = Returned [3%nat]) by (vm_compute; reflexivity).
  assert (Hshort : (length [7%nat] < 2)%nat) by (simpl; lia).
  split; split.
  - exact H.
  - exact (proj1 (proj1 (minimization_returns_sublist needs_3 10 _) _ H)).
  - exact Hshort.
  - exact (proj2 (minimization_returns_sublist needs_3 0 [7%nat]) Hshort).
Defined.

(** ** The minimizer on the source's own predicate *)

Section StubFacts.
Context {A : Type} `{EqDecision A}.

Lemma filter_none (P : A -> Prop) `{!forall x, Decision (P x)} (l : list A) :
  (forall x, x ∈ l -> ~ P x) -> filter P l = [].
Proof.
  induction l as [|a l IH]; intros Hall; [reflexivity|].
  rewrite filter_cons, decide_False by (apply Hall; left).
  apply IH. intros x Hx. apply Hall. now right.
Qed.

Lemma filter_all (P : A -> Prop) `{!forall x, Decision (P x)} (l : list A) :
  (forall x, x ∈ l -> P x) -> filter P l = l.
Proof.
  induction l as [|a l IH]; intros Hall; [reflexivity|].
  rewrite filter_cons, decide_True by (apply Hall; left).
  f_equal. apply IH. intros x Hx. apply Hall. now right.
Qed.

(** Removing a leading subset of distinct steps leaves the steps after it. *)
Lemma without_leading (steps : list A) (k : nat) :
  NoDup steps -> without steps (firstn k steps) = skipn k steps.
Proof.
  intros Hnd. unfold without.
  rewrite <- (firstn_skipn k steps) in Hnd.
  apply NoDup_app in Hnd. destruct Hnd as (_ & Hdisj & _).
  transitivity (filter (λ s, s ∉ firstn k steps)
                  (firstn k steps ++ skipn k steps));
    [now rewrite firstn_skipn|].
  rewrite filter_app, filter_none, filter_all; [reflexivity | |].
  - intros x Hx Hin. exact (Hdisj x Hin Hx).
  - intros x Hx Hn. exact (Hn Hx).
Qed.

Lemma stub_loop_body (steps : list A) :
  NoDup steps -> (2 <= length steps)%nat ->
  loop_body _test_steps_still_fail steps 2
  = Reduced (skipn (length steps / 2) steps) 2.
Proof.
  intros Hnd Hlen. unfold loop_body, _split_into_subsets. cbv zeta.
  assert (Hhalf : (1 <= length steps / 2)%nat)
    by (apply Nat.div_le_lower_bound; lia).
  assert (Hrest : (length steps / 2 < length steps)%nat)
    by (apply Nat.div_lt; lia).
  destruct (length steps / 2)%nat as [|k] eqn:Hsize; [lia|].
  destruct steps as [|a steps]; [simpl in Hlen; lia|].
  cbn [length slices first_removable].
  rewrite (without_leading (a :: steps) (S k) Hnd).
  assert (Hne : skipn (S k) (a :: steps) <> []).
  { intros Hnil. apply (f_equal length) in Hnil.
    rewrite length_skipn in Hnil. simpl length in *. lia. }
  apply test_steps_still_fail_nonempty in Hne. rewrite Hne. reflexivity.
Qed.

Lemma stub_loop_returns_last (fuel : nat) :
  forall steps : list A,
    NoDup steps -> steps <> [] -> (length steps <= fuel)%nat ->
    exists x, last steps = Some x /\
      minimization_loop _test_steps_still_fail fuel steps 2 = Returned [x].
Proof.
  induction fuel as [|fuel IH]; intros steps Hnd Hne Hfuel.
  - destruct steps; [contradiction | simpl in Hfuel; lia].
  - rewrite minimization_loop_unfold.
    destruct (2 <=? length steps)%nat eqn:Hlen.
    + apply Nat.leb_le in Hlen. rewrite stub_loop_body by assumption.
      assert (Hhalf : (1 <= length steps / 2)%nat)
        by (apply Nat.div_le_lower_bound; lia).
      assert (Hrest : (length steps / 2 < length steps)%nat)
        by (apply Nat.div_lt; lia).
      set (k := (length steps / 2)%nat) in *.
      assert (Hnd' : NoDup (skipn k steps)).
      { rewrite <- (firstn_skipn k steps) in Hnd.
        apply NoDup_app in Hnd. tauto. }
      assert (Hne' : skipn k steps <> []).
      { intros Hnil. apply (f_equal length) in Hnil.
        rewrite length_skipn in Hnil. simpl in Hnil. lia. }
      destruct (IH (skipn k steps) Hnd' Hne') as (x & Hlast & Hret).
      { rewrite length_skipn. lia. }
      exists x. split; [|exact Hret].
      rewrite <- (firstn_skipn k steps), last_app, Hlast. reflexivity.
    + apply Nat.leb_gt in Hlen.
      destruct steps as [|x [|y steps]]; [contradiction | | simpl in Hlen; lia].
      exists x. split; reflexivity.
Qed.

(** X5. On steps that are all different the minimizer, run with the
    source's [_test_steps_still_fail], returns within as many passes as there
    are steps, and what it returns is the last step alone. *)
Theorem stub_minimization_keeps_last_step (fuel : nat) (steps : list A) :
  NoDup steps -> steps <> [] -> (length steps <= fuel)%nat ->
  exists x, last steps = Some x /\
    _delta_minimization_algorithm _test_steps_still_fail fuel steps
    = Returned [x].
Proof. apply stub_loop_returns_last. Qed.

End StubFacts.

Lemma stub_minimization_keeps_last_step_witness :
  NoDup [1; 2; 3]%nat /\ [1; 2; 3]%nat <> [] /\
  _delta_minimization_algorithm _test_steps_still_fail 3 [1; 2; 3]%nat
  = Returned [3%nat].
Proof.
  assert (Hnd : NoDup [1; 2; 3]%nat) by (repeat (constructor; [set_solver|]); constructor).
  assert (Hne : [1; 2; 3]%nat <> []) by discriminate.
  split; [exact Hnd|]. split; [exact Hne|].
  destruct (stub_minimization_keeps_last_step 3 [1; 2; 3]%nat Hnd Hne)
    as (x & Hlast & Hret); [simpl; lia|].
  injection Hlast as <-. exact Hret.
Defined.

(** ** Bounds of the stability metrics *)

Lemma pass_rate_bounds (R : list run_result) :
  R <> [] ->
  let rate := (Qlen (List.filter passed R) / Qlen R)%Q in
  (0 <= rate)%Q /\ (rate <= 1)%Q.
Proof.
  intros Hne rate. subst rate.
  assert (Hpos : (0 < Qlen R)%Q).
  { destruct R; [contradiction|]. unfold Qlen, Qlt. simpl. lia. }
  assert (Hk : (0 <= Qlen (List.filter passed R))%Q)
    by (unfold Qlen, Qle; simpl; lia).
  assert (Hle : (Qlen (List.filter passed R) <= Qlen R)%Q).
  { unfold Qlen. rewrite <- Zle_Qle. apply Nat2Z.inj_le.
    apply List.filter_length_le. }
  split.
  - apply Qle_shift_div_l; [exact Hpos|]. now rewrite Qmult_0_l.
  - apply Qle_shift_div_r; [exact Hpos|]. now rewrite Qmult_1_l.
Qed.

Lemma Qsquare_nonneg (x : Q) : (0 <= x * x)%Q.
Proof.
  destruct (Qlt_le_dec x 0) as [Hneg | Hpos].
  - assert (E : (x * x == (- x) * (- x))%Q) by ring. rewrite E.
    assert (0 <= - x)%Q.
    { apply Qlt_le_weak in Hneg. apply Qopp_le_compat in Hneg. exact Hneg. }
    now apply Qmult_le_0_compat.
  - now apply Qmult_le_0_compat.
Qed.

Lemma quarter_bound (p : Q) : (p * (1 - p) <= 1 # 4)%Q.
Proof.
  apply Qle_minus_iff.
  assert (E : ((1 # 4) + - (p * (1 - p))
               == (p - (1 # 2)) * (p - (1 # 2)))%Q) by ring.
  rewrite E. apply Qsquare_nonneg.
Qed.

Lemma flaky_score_bounds (R : list run_result) :
  R <> [] ->
  (0 <= flaky_score (_calculate_stability_metrics R))%Q /\
  (flaky_score (_calculate_stability_metrics R) <= 1 # 4)%Q.
Proof.
  intros Hne. destruct (pass_rate_bounds R Hne) as [Hr0 Hr1].
  destruct R as [|r0 R0]; [contradiction|].
  set (R := r0 :: R0) in *.
  unfold _calculate_stability_metrics. fold R.
  change (match R with [] => _ | _ :: _ => ?b end) with b.
  cbn [flaky_score].
  destruct (decide _).
  - rewrite (np_var_pass_rate R Hne). split.
    + apply Qmult_le_0_compat; [exact Hr0|].
      apply -> Qle_minus_iff. exact Hr1.
    + apply quarter_bound.
  - split; discriminate.
Qed.

Lemma consistency_score_eq (R : list run_result) :
  R <> [] ->
  consistency_score (_calculate_stability_metrics R)
  = (1 - flaky_score (_calculate_stability_metrics R))%Q.
Proof. destruct R; [contradiction | reflexivity]. Qed.

Lemma stability_score_eq (R : list run_result) :
  R <> [] ->
  stability_score (_calculate_stability_metrics R)
  = (Qlen (List.filter passed R) / Qlen R)%Q.
Proof. destruct R; [contradiction | reflexivity]. Qed.

(** X6. For a non-empty list of runs, [stability_score] lies between 0 and
    1, [flaky_score] between 0 and 1/4, [consistency_score] between 3/4 and
    1, and the passed and the failed runs of the summary add up to the
    total. *)
Theorem stability_metrics_bounds (R : list run_result) :
  R <> [] ->
  let m := _calculate_stability_metrics R in
  (0 <= stability_score m)%Q /\ (stability_score m <= 1)%Q /\
  (0 <= flaky_score m)%Q /\ (flaky_score m <= 1 # 4)%Q /\
  (3 # 4 <= consistency_score m)%Q /\ (consistency_score m <= 1)%Q /\
  exists s, summary m = Some s /\
    (passed_runs s + failed_runs s = total_runs s)%nat /\
    total_runs s = length R.
Proof.
  intros Hne m. subst m.
  destruct (pass_rate_bounds R Hne) as [Hr0 Hr1].
  destruct (flaky_score_bounds R Hne) as [Hf0 Hf1].
  rewrite (consistency_score_eq R Hne), (stability_score_eq R Hne).
  set (flaky := flaky_score (_calculate_stability_metrics R)) in *.
  split; [exact Hr0|]. split; [exact Hr1|].
  split; [exact Hf0|]. split; [exact Hf1|].
  split; [|split].
  - apply Qle_minus_iff.
    assert (E : (1 - flaky + - (3 # 4) == (1 # 4) + - flaky)%Q) by ring.
    rewrite E. apply -> Qle_minus_iff. exact Hf1.
  - apply Qle_minus_iff.
    assert (E : (1 + - (1 - flaky) == flaky)%Q) by ring.
    rewrite E. exact Hf0.
  - destruct R as [|r0 R0]; [contradiction|].
    eexists. split; [reflexivity|]. cbn [passed_runs failed_runs total_runs].
    split; [|reflexivity].
    generalize (r0 :: R0). clear.
    induction l as [|r R IH]; [reflexivity|].
    simpl. destruct (passed r); simpl; lia.
Qed.

Lemma stability_metrics_bounds_witness :
  seed_runs <> [] /\
  (flaky_score (_calculate_stability_metrics seed_runs) <= 1 # 4)%Q.
Proof.
  assert (Hne : seed_runs <> []) by discriminate.
  split; [exact Hne|].
  exact (proj1 (proj2 (proj2 (proj2
           (stability_metrics_bounds seed_runs Hne))))).
Defined.

(** ** The minimizer inside a validation cycle *)

Definition assertion_step : test_step :=
  {[ "type" := "assertion"; "selector" := "h1"; "expected" := "Success";
     "description" := "Verify success" ]}%string.

Lemma extracted_steps_distinct (run : run_result) :
  NoDup (_extract_test_steps run).
Proof.
  unfold _extract_test_steps.
  assert (Hdiff : forall (a b : test_step),
             a !! "type"%string <> b !! "type"%string -> a <> b)
    by (intros a b Hab ->; now apply Hab).
  apply NoDup_cons. split.
  - rewrite !elem_of_cons, elem_of_nil.
    intros [E | [E | []]]; revert E; apply Hdiff; vm_compute; discriminate.
  - apply NoDup_cons. split; [|apply NoDup_singleton].
    rewrite elem_of_cons, elem_of_nil.
    intros [E | []]; revert E; apply Hdiff; vm_compute; discriminate.
Qed.

(** X8. When no run failed [_perform_delta_minimization] returns [None].
    When one did, it returns, after at most three passes of the minimizer,
    the report of a completed minimization from three steps to one, the
    assertion step, a reduction of 200/3 per cent. *)
Theorem perform_delta_minimization_report (fuel : nat)
    (results : list run_result) :
  (3 <= fuel)%nat ->
  ((forall r, In r results -> passed r = true) ->
     _perform_delta_minimization fuel results = Some None) /\
  ((exists r, In r results /\ passed r = false) ->
     exists pct,
       _perform_delta_minimization fuel results
       = Some (Some (completed 3 1 pct [assertion_step])) /\
       (pct == 200 # 3)%Q).
Proof.
  intros Hfuel. unfold _perform_delta_minimization. cbv zeta. split.
  - intros Hall.
    assert (Hnil : List.filter (fun r => negb (passed r)) results = []).
    { induction results as [|r rs IH]; [reflexivity|]. simpl.
      rewrite (Hall r (or_introl eq_refl)). simpl.
      apply IH. intros q Hq. apply Hall. now right. }
    now rewrite Hnil.
  - intros (r & Hin & Hfail).
    destruct (List.filter (fun r => negb (passed r)) results)
      as [|failing_run rest] eqn:Hf.
    + exfalso.
      assert (Hr : In r (List.filter (fun r => negb (passed r)) results))
        by (apply filter_In; rewrite Hfail; auto).
      rewrite Hf in Hr. exact Hr.
    + change (length (_extract_test_steps failing_run) <=? 1)%nat with false.
      cbv iota.
      destruct (stub_loop_returns_last fuel (_extract_test_steps failing_run)
                  (extracted_steps_distinct failing_run))
        as (x & Hlast & Hret); [discriminate | simpl; lia |].
      unfold _delta_minimization_algorithm. rewrite Hret.
      injection Hlast as <-. eexists. split; [reflexivity|].
      vm_compute. reflexivity.
Qed.

Lemma perform_delta_minimization_report_witness :
  (3 <= 3)%nat /\
  (exists r, In r seed_runs /\ passed r = false) /\
  exists pct,
    _perform_delta_minimization 3 seed_runs
    = Some (Some (completed 3 1 pct [assertion_step])).
Proof.
  assert (Hfuel : (3 <= 3)%nat) by lia.
  assert (Hfail : exists r, In r seed_runs /\ passed r = false).
  { exists (seed_run 3 false). split; [simpl; tauto | reflexivity]. }
  split; [exact Hfuel|]. split; [exact Hfail|].
  destruct (proj2 (perform_delta_minimization_report 3 seed_runs Hfuel) Hfail)
    as (pct & Hret & _).
  exists pct. exact Hret.
Defined.

(** X9. With the threshold 0.3 of config.py, [run_validation_cycle] never
    gets a minimization report: for a non-empty list of runs the flaky score
    is at most 1/4 and the minimizer is not called, and for an empty list it
    is called and finds no failing run. *)
Theorem minimization_never_reported (fuel : nat) (results : list run_result) :
  cycle_minimization fuel results = Some None.
Proof.
  unfold cycle_minimization. cbv zeta.
  destruct results as [|r rs] eqn:Hres; [reflexivity|]. rewrite <- Hres.
  assert (Hne : results <> []) by (subst; discriminate).
  destruct (flaky_score_bounds results Hne) as [_ Hle].
  assert (Hlow : Qle_bool (flaky_score (_calculate_stability_metrics results))
                   flaky_threshold = true).
  { apply Qle_bool_iff. eapply Qle_trans; [exact Hle|].
    unfold flaky_threshold. discriminate. }
  now rewrite Hlow.
Qed.

(** ** One more passing run *)

Lemma Qlen_snoc {A : Type} (l : list A) (x : A) :
  (Qlen (l ++ [x]) == Qlen l + 1)%Q.
Proof.
  unfold Qlen. rewrite length_app. simpl length.
  rewrite Nat2Z.inj_add, inject_Z_plus. reflexivity.
Qed.

(** X7. A passing run added to the runs never lowers [stability_score]. *)
Theorem passing_run_keeps_stability (R : list run_result) (r : run_result) :
  passed r = true ->
  (stability_score (_calculate_stability_metrics R)
   <= stability_score (_calculate_stability_metrics (R ++ [r])))%Q.
Proof.
  intros Hpass.
  assert (Hne' : R ++ [r] <> []) by (destruct R; discriminate).
  rewrite (stability_score_eq _ Hne').
  rewrite List.filter_app. cbn [List.filter]. rewrite Hpass.
  destruct R as [|r0 R0] eqn:HR.
  - vm_compute. discriminate.
  - rewrite <- HR in *. assert (Hne : R <> []) by (subst; discriminate).
    rewrite (stability_score_eq _ Hne).
    destruct (pass_rate_bounds R Hne) as [_ Hr1].
    rewrite !Qlen_snoc.
    set (a := Qlen (List.filter passed R)) in *. set (b := Qlen R) in *.
    assert (Hb : (0 < b)%Q).
    { subst b R. unfold Qlen, Qlt. simpl. lia. }
    assert (Hb1 : (0 < b + 1)%Q).
    { eapply Qlt_trans; [exact Hb|].
      rewrite <- (Qplus_0_r b) at 1. apply Qplus_lt_r. reflexivity. }
    apply Qle_shift_div_l; [exact Hb1|].
    assert (E : (a / b * (b + 1) == a + a / b)%Q).
    { field. intros Hz. rewrite Hz in Hb. discriminate. }
    rewrite E. apply Qplus_le_r. exact Hr1.
Qed.

Lemma passing_run_keeps_stability_witness :
  passed (seed_run 6 true) = true /\
  (stability_score (_calculate_stability_metrics seed_runs)
   <= stability_score
        (_calculate_stability_metrics (seed_runs ++ [seed_run 6 true])))%Q.
Proof.
  split; [reflexivity|].
  exact (passing_run_keeps_stability seed_runs (seed_run 6 true) eq_refl).
Defined.

(** ** More on the persistence of a validation cycle *)

(** X4. The source's [_test_steps_still_fail] answers [True] for every list
    of steps that is not empty and [False] for the empty list, whatever the
    steps are. *)
Theorem stub_predicate_nonempty {A : Type} (steps : list A) :
  (_test_steps_still_fail steps = true <-> steps <> []) /\
  (_test_steps_still_fail steps = false <-> steps = []).
Proof.
  pose proof (test_steps_still_fail_nonempty steps) as Hiff.
  split; [exact Hiff|].
  destruct (_test_steps_still_fail steps); destruct steps;
    split; intros H; try reflexivity; try discriminate.
  - exfalso. now apply (proj1 Hiff).
  - assert (Hne : a :: steps <> []) by discriminate.
    apply Hiff in Hne. discriminate.
Qed.

(** X10. What [_save_validation_results] touches.  For a cycle without any
    run nothing is written.  Otherwise the rows of the other repros are as
    before, a repro that is not in the table is not created, the run rows
    that were there are kept in front of the new ones, and the cache holds
    under [stability:<repro_id>], for 86400 seconds, the scores and the
    class of the cycle, every other cache entry being as before. *)
Theorem save_validation_results_frame (now : Z) (repro_id : string)
    (results : list run_result) (db : store) :
  let db' := _save_validation_results now repro_id
               (summarize repro_id results) db in
  (results = [] -> db' = db) /\
  (results <> [] ->
     (forall other, other <> repro_id ->
        repros db' !! other = repros db !! other) /\
     (repros db !! repro_id = None -> repros db' !! repro_id = None) /\
     (exists added, runs db' = runs db ++ added /\
                    length added = length results) /\
     (exists record,
        cache db' !! ("stability:" +:+ repro_id)%string
          = Some (record, 86400) /\
        cached_stability_score record
          = stability_score (_calculate_stability_metrics results) /\
        cached_flaky_score record
          = flaky_score (_calculate_stability_metrics results) /\
        Some (cached_stability_class record)
          = stability_class (_calculate_stability_metrics results)) /\
     (forall key, key <> ("stability:" +:+ repro_id)%string ->
        cache db' !! key = cache db !! key)).
Proof.
  cbv zeta. split; [intros ->; reflexivity|].
  intros Hne. destruct (metrics_class_some results Hne) as [class Hclass].
  unfold _save_validation_results. cbn [stability_analysis summarize].
  rewrite Hclass. cbn [repros runs cache run_results].
  split; [|split; [|split; [|split]]].
  - intros other Hother. now apply lookup_alter_ne.
  - intros Hnone. rewrite lookup_alter_eq, Hnone. reflexivity.
  - eexists. split; [reflexivity|]. apply length_map.
  - eexists. split; [apply lookup_insert_eq|]. cbn. auto.
  - intros key Hkey. now apply lookup_insert_ne.
Qed.

Lemma save_validation_results_frame_witness :
  all_failed <> [] /\
  repros (_save_validation_results 7 "repro-2"
            (summarize "repro-2" all_failed) seed_store) !! "repro-2"%string
  = None.
Proof.
  assert (Hne : all_failed <> []) by discriminate.
  split; [exact Hne|].
  destruct (proj2 (save_validation_results_frame 7 "repro-2" all_failed
                     seed_store) Hne) as (_ & Hmissing & _).
  apply Hmissing. vm_compute. reflexivity.
Defined.

End ValidateFacts.

(** * Properties of the Signal worker *)
Module SignalFacts.
Import Signal.

(** ** HAR summary *)

Lemma entry_loop_failed (es : list har_entry) :
  forall acc,
    acc_failed_requests (fold_left entry_step es acc) =
    acc_failed_requests acc +
    Z.of_nat (length (filter (λ e, 400 <= status_of e) es)).
Proof.
  induction es as [|e es IH]; intros acc; simpl fold_left.
  - simpl. lia.
  - rewrite IH. unfold entry_step. cbn [acc_failed_requests].
    rewrite filter_cons.
    destruct (Z.leb_spec 400 (status_of e)) as [Hge | Hlt].
    + rewrite decide_True by exact Hge. simpl length. lia.
    + rewrite decide_False by lia. lia.
Qed.

Lemma entry_loop_total (es : list har_entry) :
  forall acc,
    acc_total_requests (fold_left entry_step es acc) =
    acc_total_requests acc + Z.of_nat (length es).
Proof.
  induction es as [|e es IH]; intros acc; simpl fold_left.
  - simpl. lia.
  - rewrite IH. simpl. lia.
Qed.

Lemma py_max_ge_first (ts : list Z) : forall t, t <= py_max t ts.
Proof.
  unfold py_max. induction ts as [|u ts IH]; intros t; simpl; [lia|].
  specialize (IH (Z.max t u)). lia.
Qed.

Lemma py_max_upper (ts : list Z) :
  forall t x, In x (t :: ts) -> x <= py_max t ts.
Proof.
  induction ts as [|u ts IH]; intros t x Hin.
  - destruct Hin as [-> | []]. apply py_max_ge_first.
  - change (py_max t (u :: ts)) with (py_max (Z.max t u) ts).
    destruct Hin as [-> | [-> | Hin]].
    + pose proof (py_max_ge_first ts (Z.max x u)). lia.
    + pose proof (py_max_ge_first ts (Z.max t x)). lia.
    + apply IH. right. exact Hin.
Qed.

Lemma py_max_member (ts : list Z) : forall t, In (py_max t ts) (t :: ts).
Proof.
  induction ts as [|u ts IH]; intros t; [now left|].
  change (py_max t (u :: ts)) with (py_max (Z.max t u) ts).
  destruct (IH (Z.max t u)) as [Heq | Hin].
  - rewrite <- Heq. destruct (Z.max_spec t u) as [[_ ->] | [_ ->]]; simpl; auto.
  - right. right. exact Hin.
Qed.

(** C7. [failed_requests] is the number of entries whose status, 0 when
    missing, is at least 400; [load_time] is 0 when no page has a positive
    [onLoad], and otherwise the greatest [onLoad] over the pages. *)
Theorem har_summary_correct (har_pages : list har_page)
    (har_entries : list har_entry) :
  let s := summary (parse_har_file har_pages har_entries) in
  failed_requests s =
    Z.of_nat (length (filter (λ e, 400 <= status_of e) har_entries)) /\
  ((forall p, In p har_pages -> onLoad_of p <= 0) -> load_time s = 0) /\
  ((exists p, In p har_pages /\ 0 < onLoad_of p) ->
     (exists p, In p har_pages /\ load_time s = onLoad_of p) /\
     (forall p, In p har_pages -> onLoad_of p <= load_time s)).
Proof.
  cbv zeta. unfold parse_har_file. cbn [summary failed_requests load_time].
  split; [|split].
  - rewrite entry_loop_failed. simpl. reflexivity.
  - intros Hnone.
    assert (Hnil : List.filter (fun t => 0 <? t) (map onLoad_of har_pages) = []).
    { induction har_pages as [|p ps IH]; [reflexivity|]. simpl.
      destruct (Z.ltb_spec 0 (onLoad_of p)) as [Hpos | _].
      - specialize (Hnone p (or_introl eq_refl)). lia.
      - apply IH. intros q Hq. apply Hnone. now right. }
    now rewrite Hnil.
  - intros (p0 & Hin0 & Hpos0).
    destruct (List.filter (fun t => 0 <? t) (map onLoad_of har_pages))
      as [|t ts] eqn:Hload.
    + exfalso.
      assert (Hin : In (onLoad_of p0)
                (List.filter (fun t => 0 <? t) (map onLoad_of har_pages))).
      { apply filter_In. split; [now apply in_map | now apply Z.ltb_lt]. }
      rewrite Hload in Hin. exact Hin.
    + pose proof (py_max_member ts t) as Hmem.
      rewrite <- Hload in Hmem. apply filter_In in Hmem.
      destruct Hmem as [Hmem Hmpos]. apply in_map_iff in Hmem.
      destruct Hmem as (pm & Hpm & Hinpm). split.
      * exists pm. auto.
      * intros p Hp. destruct (Z.ltb_spec 0 (onLoad_of p)) as [Hpos | Hle].
        -- apply py_max_upper. rewrite <- Hload. apply filter_In.
           split; [now apply in_map | now apply Z.ltb_lt].
        -- apply Z.ltb_lt in Hmpos. lia.
Qed.

Definition seed_pages : list har_page :=
  [ {| page_id := Some "page_1"%string; title := None; onLoad := Some 1200 |};
    {| page_id := Some "page_2"%string; title := None; onLoad := Some (-1) |};
    {| page_id := Some "page_3"%string; title := None; onLoad := None |} ].

Definition seed_entries : list har_entry :=
  [ {| url := Some "https://example.com/"%string;
       method := Some "GET"%string;
       response_status := Some 200; content_size := Some 1024 |};
    {| url := Some "https://example.com/api/checkout"%string;
       method := Some "POST"%string;
       response_status := Some 500; content_size := Some 64 |};
    {| url := None; method := None;
       response_status := None; content_size := None |} ].

Lemma har_summary_correct_witness :
  (exists p, In p seed_pages /\ 0 < onLoad_of p) /\
  failed_requests (summary (parse_har_file seed_pages seed_entries)) = 1 /\
  forall p, In p seed_pages ->
    onLoad_of p <= load_time (summary (parse_har_file seed_pages seed_entries)).
Proof.
  assert (Hpos : exists p, In p seed_pages /\ 0 < onLoad_of p).
  { eexists. split; [left; reflexivity | reflexivity]. }
  destruct (har_summary_correct seed_pages seed_entries) as (Hfailed & _ & Hmax).
  split; [exact Hpos|]. split.
  - rewrite Hfailed. vm_compute. reflexivity.
  - exact (proj2 (Hmax Hpos)).
Defined.

(** A GET answered 200 and a POST answered 500. *)
Example har_two_entries :
  let s := summary (parse_har_file []
             [ {| url := Some "https://example.com/"%string;
                  method := Some "GET"%string;
                  response_status := Some 200; content_size := Some 1024 |};
               {| url := Some "https://example.com/api/checkout"%string;
                  method := Some "POST"%string;
                  response_status := Some 500; content_size := Some 64 |} ]) in
  total_requests s = 2 /\ failed_requests s = 1 /\ load_time s = 0.
Proof. vm_compute. auto. Qed.

(** ** Clustering *)

Definition sum_frequency (sigs : list signature) : Z :=
  fold_right Z.add 0 (map frequency sigs).

Lemma sum_frequency_app (a b : list signature) :
  sum_frequency (a ++ b) = sum_frequency a + sum_frequency b.
Proof.
  unfold sum_frequency. induction a as [|x a IH]; simpl; [reflexivity|].
  rewrite IH. lia.
Qed.

Definition unit_frequency (s : signature) : Prop := frequency s = 1.

Lemma sum_frequency_units (sigs : list signature) :
  Forall unit_frequency sigs -> sum_frequency sigs = Z.of_nat (length sigs).
Proof.
  unfold sum_frequency.
  induction 1 as [|s sigs Hs _ IH]; [reflexivity|].
  simpl map. simpl fold_right. rewrite IH, Hs. simpl length. lia.
Qed.

(** What the grouping loop maintains, when it is about to look at index [i]:
    every cluster is non-empty and made of signatures of frequency 1, and a
    [noise_<j>] cluster has [j < i] and exactly one member. *)
Definition well_grouped (i : nat) (kg : cluster_key * list signature) : Prop :=
  kg.2 <> [] /\
  Forall unit_frequency kg.2 /\
  (forall j, kg.1 = Noise j -> (j < i)%nat /\ length kg.2 = 1%nat).

Definition members (clusters : list (cluster_key * list signature))
  : list signature :=
  concat (map snd clusters).


Section ClusteringFacts.
Variable str_of_key : cluster_key -> string.

Lemma append_to_cluster_members (key : cluster_key) (sig : signature)
    (clusters : list (cluster_key * list signature)) :
  length (members (append_to_cluster key sig clusters)) =
  S (length (members clusters)).
Proof.
  unfold members. induction clusters as [|[k g] clusters IH]; simpl.
  - reflexivity.
  - destruct (decide (k = key)); simpl.
    + rewrite !length_app. simpl. lia.
    + rewrite !length_app, IH. lia.
Qed.

Lemma append_to_cluster_grouped (i : nat) (key : cluster_key)
    (sig : signature) (clusters : list (cluster_key * list signature)) :
  unit_frequency sig ->
  (forall j, key = Noise j -> j = i) ->
  Forall (well_grouped i) clusters ->
  Forall (well_grouped (S i)) (append_to_cluster key sig clusters).
Proof.
  intros Hsig Hkey. induction 1 as [|[k g] clusters Hkg Hrest IH]; simpl.
  - constructor; [|constructor]. unfold well_grouped. simpl.
    split; [discriminate|]. split; [now constructor|].
    intros j Hj. apply Hkey in Hj. subst j. split; [lia | reflexivity].
  - destruct Hkg as (Hne & Hunits & Hnoise). simpl in *.
    destruct (decide (k = key)) as [-> | Hdiff].
    + constructor.
      * unfold well_grouped. simpl. split; [|split].
        -- destruct g; discriminate.
        -- apply Forall_app. split; [exact Hunits | now constructor].
        -- intros j Hj. destruct (Hnoise j Hj) as [Hlt _].
           apply Hkey in Hj. lia.
      * clear IH.
        eapply Forall_impl; [exact Hrest|].
        intros [k' g'] (Hne' & Hunits' & Hnoise'). simpl in *.
        split; [exact Hne'|]. split; [exact Hunits'|].
        intros j Hj. destruct (Hnoise' j Hj). split; [lia | assumption].
    + constructor; [|exact IH].
      unfold well_grouped. simpl. split; [exact Hne|]. split; [exact Hunits|].
      intros j Hj. destruct (Hnoise j Hj). split; [lia | assumption].
Qed.

Lemma group_by_cluster_grouped (labels : list Z) (sigs : list signature) :
  forall i clusters clusters',
    Forall unit_frequency sigs ->
    Forall (well_grouped i) clusters ->
    group_by_cluster str_of_key labels i sigs clusters = Some clusters' ->
    Forall (well_grouped (i + length sigs)) clusters' /\
    length (members clusters') = (length (members clusters) + length sigs)%nat.
Proof.
  induction sigs as [|sig sigs IH]; intros i clusters clusters' Hunits Hinv.
  - simpl. intros [= <-]. rewrite !Nat.add_0_r. auto.
  - simpl group_by_cluster.
    destruct (labels !! i) as [l|]; [|discriminate].
    inversion Hunits as [|? ? Hsig Hrest]; subst.
    intros Hgo. apply IH in Hgo; [| exact Hrest |].
    + rewrite append_to_cluster_members in Hgo. simpl length.
      replace (i + S (length sigs))%nat with (S i + length sigs)%nat by lia.
      destruct Hgo as [Hgrouped Hlen]. split; [exact Hgrouped | lia].
    + apply append_to_cluster_grouped; [exact Hsig | | exact Hinv].
      intros j. destruct (decide (l = -1)); congruence.
Qed.

Lemma merge_cluster_frequency (i : nat) (kg : cluster_key * list signature) :
  well_grouped i kg ->
  sum_frequency (merge_cluster kg.2) = Z.of_nat (length kg.2).
Proof.
  intros (_ & Hunits & _). destruct kg as [k g]. simpl in *.
  destruct g as [|p [|q g]].
  - reflexivity.
  - now apply sum_frequency_units.
  - unfold merge_cluster, sum_frequency. simpl. lia.
Qed.

Lemma merged_frequency (i : nat)
    (clusters : list (cluster_key * list signature)) :
  Forall (well_grouped i) clusters ->
  sum_frequency (concat (map (fun kv => merge_cluster (snd kv)) clusters)) =
  Z.of_nat (length (members clusters)).
Proof.
  unfold members. induction 1 as [|kg clusters Hkg _ IH]; [reflexivity|].
  simpl. rewrite sum_frequency_app, IH, (merge_cluster_frequency i kg Hkg).
  rewrite length_app. lia.
Qed.








End ClusteringFacts.

Definition key_name (k : cluster_key) : string :=
  match k with
  | Label _ => "cluster"
  | Noise _ => "noise"
  end.

Definition sig_of (hash msg : string) (freq : Z) : signature :=
  {| signature_hash := hash; error_type := "TypeError"; message := msg;
     details := None; stack_trace := None; key_components := [];
     severity := "high"; frequency := freq; cluster_id := None |}.



(** Two similar messages in one cluster, a third one apart. *)
Example clustering_seed :
  map (fun s => (message s, frequency s))
    (cluster_error_signatures key_name true (Some [0; 0; -1])
       [sig_of "h1" "Cannot read property" 1; sig_of "h2" "Cannot read" 1;
        sig_of "h3" "x is not defined" 1])
  = [("Cannot read"%string, 2); ("x is not defined"%string, 1)].
Proof. vm_compute. reflexivity. Qed.

(** ** Persistence *)

Section PersistenceFacts.
Variable embedding_model : option (string -> list Q).

Lemma upsert_signature_dom (now : Z) (report_id : string)
    (table : gmap string signature_row) (sig : signature) :
  dom (upsert_signature embedding_model now report_id table sig)
  = {[ signature_hash sig ]} ∪ dom table.
Proof.
  unfold upsert_signature.
  destruct (table !! signature_hash sig); apply dom_insert_L.
Qed.

Lemma save_clustered_signatures_dom (now : Z) (report_id : string)
    (signatures : list signature) :
  forall table : gmap string signature_row,
    dom (save_clustered_signatures embedding_model now report_id
           signatures table)
    = list_to_set (map signature_hash signatures) ∪ dom table.
Proof.
  unfold save_clustered_signatures.
  induction signatures as [|sig sigs IH]; intros table; simpl.
  - set_solver.
  - rewrite IH, upsert_signature_dom. set_solver.
Qed.

(** C4, as the code has it.  The write is an upsert on [signature_hash].
    When the table holds a row for the hash, that row's frequency grows by
    one, whatever the incoming frequency, its [updated_at] becomes the current
    time, every other column of the row is kept, no other row changes and the
    table has the same keys as before.  When it holds none, the hash gets one
    new row made of the incoming columns, the incoming frequency included,
    and no other row changes.  Persisting a list of signatures a second time
    adds no row. *)
Theorem upsert_on_conflict (now : Z) (report_id : string)
    (table : gmap string signature_row) (sig : signature)
    (row : signature_row) :
  table !! signature_hash sig = Some row ->
  let table' := upsert_signature embedding_model now report_id table sig in
  (exists row',
      table' !! signature_hash sig = Some row' /\
      row_frequency row' = row_frequency row + 1 /\
      row_updated_at row' = Some now /\
      row_report_id row' = row_report_id row /\
      row_error_type row' = row_error_type row /\
      row_message row' = row_message row /\
      row_details row' = row_details row /\
      row_stack_trace row' = row_stack_trace row /\
      row_key_components row' = row_key_components row /\
      row_severity row' = row_severity row /\
      row_embedding row' = row_embedding row /\
      row_created_at row' = row_created_at row) /\
  (forall h, h <> signature_hash sig -> table' !! h = table !! h) /\
  dom table' = dom table /\
  (forall t : gmap string signature_row,
      t !! signature_hash sig = None ->
      let t' := upsert_signature embedding_model now report_id t sig in
      (exists new,
          t' !! signature_hash sig = Some new /\
          row_report_id new = report_id /\
          row_error_type new = error_type sig /\
          row_message new = message sig /\
          row_details new = details sig /\
          row_stack_trace new = stack_trace sig /\
          row_key_components new = key_components sig /\
          row_severity new = severity sig /\
          row_frequency new = frequency sig /\
          row_embedding new = embedding_vector embedding_model sig /\
          row_created_at new = now /\
          row_updated_at new = None) /\
      (forall h, h <> signature_hash sig -> t' !! h = t !! h) /\
      dom t' = {[ signature_hash sig ]} ∪ dom t) /\
  (forall (signatures : list signature) (t : gmap string signature_row),
      let once := save_clustered_signatures embedding_model now report_id
                    signatures t in
      let twice := save_clustered_signatures embedding_model now report_id
                     signatures once in
      dom twice = dom once /\ size twice = size once).
Proof.
  intros Hrow table'. subst table'. split; [|split; [|split; [|split]]].
  - unfold upsert_signature. rewrite Hrow. eexists.
    split; [apply lookup_insert_eq|]. simpl. repeat split.
  - intros h Hh. unfold upsert_signature. rewrite Hrow.
    now apply lookup_insert_ne.
  - rewrite upsert_signature_dom.
    assert (signature_hash sig ∈ dom table) by (apply elem_of_dom; eauto).
    set_solver.
  - intros t Hnone t'. subst t'. split; [|split].
    + unfold upsert_signature. rewrite Hnone. eexists.
      split; [apply lookup_insert_eq|]. simpl. repeat split.
    + intros h Hh. unfold upsert_signature. rewrite Hnone.
      now apply lookup_insert_ne.
    + apply upsert_signature_dom.
  - intros signatures t once twice.
    assert (Hdom : dom twice = dom once).
    { subst twice once. rewrite !save_clustered_signatures_dom. set_solver. }
    split; [exact Hdom|].
    rewrite <- !size_dom. now rewrite Hdom.
Qed.

End PersistenceFacts.

Definition stored_row (freq : Z) : signature_row :=
  {| row_report_id := "report-1"; row_error_type := "TypeError";
     row_message := "Cannot read"; row_details := None;
     row_stack_trace := None; row_key_components := [];
     row_severity := "high"; row_frequency := freq; row_embedding := [];
     row_created_at := 10; row_updated_at := None |}.

Lemma upsert_on_conflict_witness :
  ({[ "h1"%string := stored_row 2 ]} : gmap string signature_row)
    !! signature_hash (sig_of "h1" "Cannot read" 3) = Some (stored_row 2) /\
  row_frequency <$>
    upsert_signature None 20 "report-1" {[ "h1"%string := stored_row 2 ]}
      (sig_of "h1" "Cannot read" 3) !! "h1"%string = Some 3.
Proof.
  assert (Hrow : ({[ "h1"%string := stored_row 2 ]} : gmap string signature_row)
                   !! signature_hash (sig_of "h1" "Cannot read" 3)
                 = Some (stored_row 2)) by (vm_compute; reflexivity).
  split; [exact Hrow|].
  destruct (proj1 (upsert_on_conflict None 20 "report-1" _ _ _ Hrow))
    as (row' & Hlook & Hfreq & _).
  simpl signature_hash in Hlook. rewrite Hlook. simpl. now rewrite Hfreq.
Defined.

(** C4, as stated, fails: a stored row of frequency 2 that meets an incoming
    signature of frequency 3 ends with frequency 3, not 5. *)
Lemma upsert_frequency_counterexample :
  let incoming := sig_of "h1" "Cannot read" 3 in
  let table : gmap string signature_row := {[ "h1"%string := stored_row 2 ]} in
  let table' := upsert_signature None 20 "report-1" table incoming in
  row_frequency <$> table' !! "h1"%string = Some 3 /\
  row_frequency <$> table' !! "h1"%string
    <> Some (2 + frequency incoming).
Proof. vm_compute. split; [reflexivity | discriminate]. Qed.

(** ** More on the HAR summary *)

Definition positive_sizes (es : list har_entry) : list Z :=
  List.filter (fun z => 0 <? z) (map size_of es).

Lemma entry_loop_size (es : list har_entry) :
  forall acc,
    acc_total_size (fold_left entry_step es acc) =
    acc_total_size acc + fold_right Z.add 0 (positive_sizes es).
Proof.
  unfold positive_sizes.
  induction es as [|e es IH]; intros acc; simpl fold_left.
  - simpl. lia.
  - rewrite IH. unfold entry_step. cbn [acc_total_size]. simpl.
    destruct (0 <? size_of e); simpl; lia.
Qed.

Lemma entry_loop_entries (es : list har_entry) :
  forall acc,
    acc_entries (fold_left entry_step es acc) =
    acc_entries acc ++
    map (fun e => {| entry_url := url e; entry_method := method e;
                     entry_status := status_of e;
                     responseSize := size_of e |}) es.
Proof.
  induction es as [|e es IH]; intros acc; simpl fold_left.
  - simpl. now rewrite app_nil_r.
  - rewrite IH. unfold entry_step. cbn [acc_entries].
    now rewrite <- app_assoc.
Qed.

Lemma positive_sum_nonneg (l : list Z) :
  0 <= fold_right Z.add 0 (List.filter (fun z => 0 <? z) l).
Proof.
  induction l as [|z l IH]; simpl; [lia|].
  destruct (Z.ltb_spec 0 z); simpl; lia.
Qed.

(** X11. In the summary of a HAR file [total_requests] is the number of
    entries, which is also the number of parsed entries, kept in their
    order with a missing status or size read as 0; [failed_requests] is
    between 0 and [total_requests]; [total_size] is the sum of the content
    sizes that are positive, so never negative; [load_time] is never
    negative. *)
Theorem har_summary_totals (har_pages : list har_page)
    (har_entries : list har_entry) :
  let parsed := parse_har_file har_pages har_entries in
  let s := summary parsed in
  total_requests s = Z.of_nat (length har_entries) /\
  map entry_status (entries parsed) = map status_of har_entries /\
  map responseSize (entries parsed) = map size_of har_entries /\
  0 <= failed_requests s <= total_requests s /\
  total_size s = fold_right Z.add 0 (positive_sizes har_entries) /\
  0 <= total_size s /\
  0 <= load_time s.
Proof.
  cbv zeta. unfold parse_har_file.
  cbn [summary entries total_requests failed_requests total_size load_time].
  rewrite entry_loop_total, entry_loop_failed, entry_loop_size,
    entry_loop_entries.
  cbn [acc_total_requests acc_failed_requests acc_total_size acc_entries app].
  rewrite !map_map. cbn [entry_status responseSize].
  split; [lia|]. split; [reflexivity|]. split; [reflexivity|].
  split; [|split; [lia|split]].
  - pose proof (length_filter (λ e, 400 <= status_of e) har_entries). lia.
  - pose proof (positive_sum_nonneg (map size_of har_entries)).
    unfold positive_sizes. lia.
  - destruct (List.filter (fun t => 0 <? t) (map onLoad_of har_pages))
      as [|t ts] eqn:Hload; [lia|].
    assert (Hin : In t (List.filter (fun t => 0 <? t)
                          (map onLoad_of har_pages)))
      by (rewrite Hload; now left).
    apply filter_In in Hin. destruct Hin as [_ Hpos].
    apply Z.ltb_lt in Hpos. pose proof (py_max_ge_first ts t). lia.
Qed.

(** ** More on the clustering *)

Section ClusteringShape.
Variable str_of_key : cluster_key -> string.

Lemma group_by_cluster_members (labels : list Z) (sigs : list signature) :
  forall i clusters clusters',
    group_by_cluster str_of_key labels i sigs clusters = Some clusters' ->
    length (members clusters') = (length (members clusters) + length sigs)%nat.
Proof.
  induction sigs as [|sig sigs IH]; intros i clusters clusters'.
  - simpl. intros [= <-]. lia.
  - simpl group_by_cluster.
    destruct (labels !! i) as [l|]; [|discriminate].
    intros Hgo. apply IH in Hgo.
    rewrite append_to_cluster_members in Hgo. simpl length. lia.
Qed.

Lemma merge_cluster_length (cluster_sigs : list signature) :
  (length (merge_cluster cluster_sigs) <= length cluster_sigs)%nat.
Proof.
  destruct cluster_sigs as [|p [|q g]]; simpl; lia.
Qed.

Lemma merged_length (clusters : list (cluster_key * list signature)) :
  (length (concat (map (fun kv => merge_cluster (snd kv)) clusters))
   <= length (members clusters))%nat.
Proof.
  unfold members. induction clusters as [|kg clusters IH]; [simpl; lia|].
  simpl. rewrite !length_app.
  pose proof (merge_cluster_length kg.2). lia.
Qed.

(** X12. Clustering never returns more signatures than it was given,
    whatever the model, the labels and the signatures. *)
Theorem clustering_never_grows (embedding_model : bool)
    (cluster_labels : option (list Z)) (signatures : list signature) :
  (length (cluster_error_signatures str_of_key embedding_model cluster_labels
             signatures)
   <= length signatures)%nat.
Proof.
  unfold cluster_error_signatures.
  destruct signatures as [|s0 sigs0] eqn:Hsigs; [simpl; lia|].
  rewrite <- Hsigs.
  destruct embedding_model; [|lia].
  destruct cluster_labels as [labels|]; [|lia].
  destruct (group_by_cluster str_of_key labels 0 signatures []) as [cl|] eqn:Hg;
    [|lia].
  apply group_by_cluster_members in Hg.
  pose proof (merged_length cl) as Hm. simpl in Hg. lia.
Qed.

(** Signatures with the hash, the type and the severity of an input. *)
Definition comes_from (inputs : list signature) (s : signature) : Prop :=
  exists s0, In s0 inputs /\
    signature_hash s = signature_hash s0 /\
    error_type s = error_type s0 /\
    severity s = severity s0 /\
    details s = details s0.

Lemma append_to_cluster_all (P : signature -> Prop) (key : cluster_key)
    (sig : signature) (clusters : list (cluster_key * list signature)) :
  P sig -> Forall P (members clusters) ->
  Forall P (members (append_to_cluster key sig clusters)).
Proof.
  intros Hsig. unfold members.
  induction clusters as [|[k g] clusters IH]; simpl; intros Hall.
  - now constructor.
  - apply Forall_app in Hall. destruct Hall as [Hg Hrest].
    destruct (decide (k = key)); simpl; apply Forall_app.
    + split; [|exact Hrest]. apply Forall_app. split; [exact Hg|].
      now constructor.
    + split; [exact Hg | now apply IH].
Qed.

Lemma group_by_cluster_all (inputs : list signature) (labels : list Z)
    (sigs : list signature) :
  forall i clusters clusters',
    (forall s, In s sigs -> In s inputs) ->
    Forall (comes_from inputs) (members clusters) ->
    group_by_cluster str_of_key labels i sigs clusters = Some clusters' ->
    Forall (comes_from inputs) (members clusters').
Proof.
  induction sigs as [|sig sigs IH]; intros i clusters clusters' Hin Hall.
  - simpl. now intros [= <-].
  - simpl group_by_cluster.
    destruct (labels !! i) as [l|]; [|discriminate].
    apply IH.
    + intros s Hs. apply Hin. now right.
    + apply append_to_cluster_all; [|exact Hall].
      exists sig. split; [apply Hin; now left|]. simpl. auto.
Qed.

Lemma merge_cluster_all (inputs : list signature)
    (cluster_sigs : list signature) :
  Forall (comes_from inputs) cluster_sigs ->
  Forall (comes_from inputs) (merge_cluster cluster_sigs).
Proof.
  intros Hall. destruct cluster_sigs as [|p [|q g]]; try exact Hall.
  simpl. constructor; [|constructor].
  inversion Hall as [|? ? (s0 & Hin & Hh & Ht & Hs & Hd) _]; subst.
  exists s0. simpl. auto.
Qed.

(** X13. Clustering invents no signature: every signature it returns has the
    hash, the error type, the severity and the details of one of the
    signatures it was given. *)
Theorem clustering_keeps_identity (embedding_model : bool)
    (cluster_labels : option (list Z)) (signatures : list signature) :
  Forall (comes_from signatures)
    (cluster_error_signatures str_of_key embedding_model cluster_labels
       signatures).
Proof.
  assert (Hself : Forall (comes_from signatures) signatures).
  { apply Forall_forall. intros s Hs. exists s.
    split; [now apply list_elem_of_In|]. auto. }
  unfold cluster_error_signatures.
  destruct signatures as [|s0 sigs0] eqn:Hsigs; [constructor|].
  rewrite <- Hsigs in *.
  destruct embedding_model; [|exact Hself].
  destruct cluster_labels as [labels|]; [|exact Hself].
  destruct (group_by_cluster str_of_key labels 0 signatures []) as [cl|] eqn:Hg;
    [|exact Hself].
  apply (group_by_cluster_all signatures) in Hg; [|auto|constructor].
  unfold members in Hg. clear Hself.
  induction cl as [|kg cl IH]; [constructor|].
  simpl in *. apply Forall_app in Hg. destruct Hg as [Hg Hrest].
  apply Forall_app. split; [now apply merge_cluster_all | now apply IH].
Qed.

End ClusteringShape.

Lemma find_common_pattern_member (others : list string) :
  forall first, In (_find_common_pattern first others) (first :: others).
Proof.
  induction others as [|m others IH]; intros first; [now left|].
  simpl _find_common_pattern.
  destruct (String.length m <? String.length first)%nat.
  - right. apply IH.
  - destruct (IH first) as [<- | Hin]; [now left | right; now right].
Qed.

Lemma find_common_pattern_le_first (others : list string) :
  forall first,
    (String.length (_find_common_pattern first others)
     <= String.length first)%nat.
Proof.
  induction others as [|m others IH]; intros first; [simpl; lia|].
  simpl _find_common_pattern.
  destruct (Nat.ltb_spec (String.length m) (String.length first)).
  - specialize (IH m). lia.
  - apply IH.
Qed.

Lemma find_common_pattern_least (first : string) (others : list string) :
  In (_find_common_pattern first others) (first :: others) /\
  forall m, In m (first :: others) ->
    (String.length (_find_common_pattern first others)
     <= String.length m)%nat.
Proof.
  split; [apply find_common_pattern_member|].
  revert first. induction others as [|m' others IH]; intros first m Hin.
  - destruct Hin as [<- | []]. simpl. lia.
  - simpl _find_common_pattern.
    destruct (Nat.ltb_spec (String.length m') (String.length first)).
    + destruct Hin as [<- | Hin].
      * pose proof (find_common_pattern_le_first others m'). lia.
      * apply IH. exact Hin.
    + destruct Hin as [<- | [<- | Hin]].
      * apply find_common_pattern_le_first.
      * pose proof (find_common_pattern_le_first others first). lia.
      * apply IH. now right.
Qed.

(** X14. The message [_find_common_pattern] picks is one of the messages,
    and none of them is shorter. *)
Theorem find_common_pattern_shortest (first : string) (others : list string) :
  In (_find_common_pattern first others) (first :: others) /\
  forall m, In m (first :: others) ->
    (String.length (_find_common_pattern first others)
     <= String.length m)%nat.
Proof. exact (find_common_pattern_least first others). Qed.

Lemma two_distinct_members {A : Type} (l : list A) (x y : A) :
  NoDup l -> x ∈ l -> y ∈ l -> x <> y -> (1 < length l)%nat.
Proof.
  intros Hnd Hx Hy Hxy.
  assert (Hsub : [x; y] ⊆+ l).
  { apply NoDup_submseteq.
    - apply NoDup_cons. split; [|apply NoDup_singleton].
      rewrite elem_of_cons, elem_of_nil. tauto.
    - intros z Hz. rewrite !elem_of_cons, elem_of_nil in Hz.
      destruct Hz as [-> | [-> | []]]; assumption. }
  apply submseteq_length in Hsub. simpl in Hsub. lia.
Qed.

(** X15. The representative of a cluster has the hash of the first member
    and the size of the cluster as frequency; its key components are those
    of all the members, each once; and when the members' messages differ its
    message is a shortest one of them. *)
Theorem merge_cluster_signatures_union (primary : signature)
    (others : list signature) :
  let rep := _merge_cluster_signatures primary others in
  signature_hash rep = signature_hash primary /\
  frequency rep = Z.of_nat (S (length others)) /\
  NoDup (key_components rep) /\
  (forall c, c ∈ key_components rep <->
             exists s, In s (primary :: others) /\ c ∈ key_components s) /\
  In (message rep) (map message (primary :: others)) /\
  ((exists s, In s others /\ message s <> message primary) ->
   forall s, In s (primary :: others) ->
     (String.length (message rep) <= String.length (message s))%nat).
Proof.
  cbv zeta. unfold _merge_cluster_signatures. cbv zeta.
  cbn [signature_hash frequency key_components message].
  split; [reflexivity|]. split; [reflexivity|].
  split; [apply NoDup_remove_dups|]. split; [|split].
  - intros c. rewrite elem_of_remove_dups, list_elem_of_In, in_concat. split.
    + intros (l & Hl & Hc). apply in_map_iff in Hl.
      destruct Hl as (s & <- & Hs). exists s.
      split; [exact Hs | now apply list_elem_of_In].
    + intros (s & Hs & Hc). exists (key_components s).
      split; [now apply in_map | now apply list_elem_of_In].
  - destruct (decide _); [|now left].
    apply (find_common_pattern_member (map message others)).
  - intros (s' & Hs' & Hdiff) s Hs.
    destruct (decide _) as [_ | Hsame].
    + apply (proj2 (find_common_pattern_least (message primary)
                      (map message others))).
      change (message primary :: map message others)
        with (map message (primary :: others)).
      now apply in_map.
    + exfalso. apply Hsame.
      apply (two_distinct_members _ (message primary) (message s')).
      * apply NoDup_remove_dups.
      * apply elem_of_remove_dups. simpl. left.
      * apply elem_of_remove_dups. simpl. right.
        apply list_elem_of_In. now apply in_map.
      * congruence.
Qed.

(** ** More on the persistence of signatures *)

Section PersistenceBatch.
Variable embedding_model : option (string -> list Q).

(** How many signatures of a batch carry the hash [h]. *)
Definition occurrences (h : string) (signatures : list signature) : nat :=
  length (filter (λ s, signature_hash s = h) signatures).

Lemma upsert_other (now : Z) (report_id : string)
    (table : gmap string signature_row) (sig : signature) (h : string) :
  signature_hash sig <> h ->
  upsert_signature embedding_model now report_id table sig !! h = table !! h.
Proof.
  intros Hne. unfold upsert_signature.
  destruct (table !! signature_hash sig); now apply lookup_insert_ne.
Qed.

Lemma upsert_same (now : Z) (report_id : string)
    (table : gmap string signature_row) (sig : signature)
    (row : signature_row) :
  table !! signature_hash sig = Some row ->
  exists row',
    upsert_signature embedding_model now report_id table sig
      !! signature_hash sig = Some row' /\
    row_frequency row' = row_frequency row + 1 /\
    row_created_at row' = row_created_at row /\
    row_report_id row' = row_report_id row.
Proof.
  intros Hrow. unfold upsert_signature. rewrite Hrow.
  eexists. split; [apply lookup_insert_eq|]. simpl. auto.
Qed.

(** X16. After a batch of signatures is persisted, a row that was in the
    table has kept its report and its creation time, and its frequency has
    grown by the number of signatures of the batch that carry its hash; a
    row whose hash is not in the batch is as it was. *)
Theorem save_adds_occurrences (now : Z) (report_id : string)
    (signatures : list signature) :
  forall (table : gmap string signature_row) (h : string)
         (row : signature_row),
    table !! h = Some row ->
    exists row',
      save_clustered_signatures embedding_model now report_id signatures table
        !! h = Some row' /\
      row_frequency row'
      = row_frequency row + Z.of_nat (occurrences h signatures) /\
      row_created_at row' = row_created_at row /\
      row_report_id row' = row_report_id row /\
      (occurrences h signatures = 0%nat -> row' = row).
Proof.
  unfold save_clustered_signatures, occurrences.
  induction signatures as [|sig sigs IH]; intros table h row Hrow.
  - simpl. exists row. rewrite Z.add_0_r. auto.
  - simpl fold_left. rewrite filter_cons.
    destruct (decide (signature_hash sig = h)) as [Heq | Hne].
    + subst h. destruct (upsert_same now report_id table sig row Hrow)
        as (row1 & Hrow1 & Hf1 & Hc1 & Hr1).
      destruct (IH _ _ _ Hrow1) as (row' & Hrow' & Hf & Hc & Hr & _).
      exists row'. split; [exact Hrow'|]. simpl length.
      split; [lia|]. split; [congruence|]. split; [congruence|].
      discriminate.
    + destruct (IH (upsert_signature embedding_model now report_id table sig)
                  h row) as (row' & Hrow' & Hf & Hc & Hr & Hsame).
      { rewrite upsert_other by exact Hne. exact Hrow. }
      exists row'. auto.
Qed.

(** X17. Persisting a batch keeps every stored frequency at 1 or more, when
    the frequencies of the table and of the batch are. *)
Theorem save_keeps_frequency_positive (now : Z) (report_id : string)
    (signatures : list signature) :
  forall table : gmap string signature_row,
    map_Forall (fun _ row => 1 <= row_frequency row) table ->
    Forall (fun s => 1 <= frequency s) signatures ->
    map_Forall (fun _ row => 1 <= row_frequency row)
      (save_clustered_signatures embedding_model now report_id signatures
         table).
Proof.
  unfold save_clustered_signatures.
  induction signatures as [|sig sigs IH]; intros table Htable Hsigs;
    [exact Htable|].
  inversion Hsigs as [|? ? Hsig Hrest]; subst.
  simpl fold_left. apply IH; [|exact Hrest].
  unfold upsert_signature.
  destruct (table !! signature_hash sig) as [row|] eqn:Hrow.
  - apply map_Forall_insert_2; [|exact Htable].
    simpl. specialize (Htable _ _ Hrow). simpl in Htable. lia.
  - apply map_Forall_insert_2; [|exact Htable]. simpl. exact Hsig.
Qed.

End PersistenceBatch.

Lemma save_adds_occurrences_witness :
  ({[ "h1"%string := stored_row 2 ]} : gmap string signature_row)
    !! "h1"%string = Some (stored_row 2) /\
  row_frequency <$>
    save_clustered_signatures None 20 "report-1"
      [sig_of "h1" "Cannot read" 3; sig_of "h2" "x" 1;
       sig_of "h1" "Cannot read" 1]
      {[ "h1"%string := stored_row 2 ]} !! "h1"%string = Some 4.
Proof.
  assert (Hrow : ({[ "h1"%string := stored_row 2 ]}
                    : gmap string signature_row) !! "h1"%string
                 = Some (stored_row 2)) by (vm_compute; reflexivity).
  split; [exact Hrow|].
  destruct (save_adds_occurrences None 20 "report-1"
              [sig_of "h1" "Cannot read" 3; sig_of "h2" "x" 1;
               sig_of "h1" "Cannot read" 1] _ _ _ Hrow)
    as (row' & Hlook & Hfreq & _).
  rewrite Hlook. simpl. rewrite Hfreq. reflexivity.
Defined.

Lemma save_keeps_frequency_positive_witness :
  map_Forall (fun _ row => 1 <= row_frequency row)
    (save_clustered_signatures None 20 "report-1"
       [sig_of "h1" "Cannot read" 3; sig_of "h2" "x" 1]
       {[ "h1"%string := stored_row 2 ]}).
Proof.
  apply save_keeps_frequency_positive.
  - apply map_Forall_singleton. simpl. lia.
  - repeat constructor; simpl; lia.
Defined.

End SignalFacts.

(** * Properties of the string operations *)
Module TextFacts.
Import Text.

(** [needle] occurs in [hay] as a run of consecutive characters. *)
Definition infix (needle hay : str) : Prop :=
  exists pre post, hay = pre ++ needle ++ post.

Lemma starts_with_spec (needle : str) :
  forall hay, starts_with needle hay = true <-> exists post, hay = needle ++ post.
Proof.
  induction needle as [|a needle IH]; intros hay; simpl.
  - split; [eauto | reflexivity].
  - destruct hay as [|b hay].
    + split; [discriminate | intros [post Hpost]; discriminate].
    + rewrite andb_true_iff, Ascii.eqb_eq, IH. split.
      * intros [-> [post ->]]. eauto.
      * intros [post [= -> ->]]. eauto.
Qed.

Lemma contains_spec (needle : str) :
  forall hay, contains needle hay = true <-> infix needle hay.
Proof.
  unfold infix. induction hay as [|b hay IH].
  - simpl. rewrite orb_false_r, starts_with_spec. split.
    + intros [post ->]. exists [], post. reflexivity.
    + intros (pre & post & Heq). destruct pre; [|discriminate].
      eauto.
  - cbn [contains]. rewrite orb_true_iff, starts_with_spec, IH. split.
    + intros [[post ->] | (pre & post & ->)].
      * exists [], post. reflexivity.
      * exists (b :: pre), post. reflexivity.
    + intros (pre & post & Heq). destruct pre as [|c pre].
      * left. eauto.
      * right. injection Heq as -> ->. eauto.
Qed.

Lemma infix_trans (a b c : str) : infix a b -> infix b c -> infix a c.
Proof.
  intros (p1 & q1 & ->) (p2 & q2 & ->).
  exists (p2 ++ p1), (q1 ++ q2). now rewrite <- !app_assoc.
Qed.

Lemma infix_prefix (a b : str) : infix a (a ++ b).
Proof. exists [], b. reflexivity. Qed.

(** A slice of a slice is a slice of the whole. *)
Lemma slice_slice (s : str) (cs ce p L : Z) :
  0 <= cs -> cs <= p -> 0 <= L -> p + L <= ce ->
  slice (slice s cs ce) (p - cs) (p - cs + L) = slice s p (p + L).
Proof.
  intros Hcs Hp HL Hce. unfold slice.
  replace (p - cs + L - (p - cs)) with L by lia.
  replace (p + L - p) with L by lia.
  rewrite skipn_firstn_comm, firstn_firstn, skipn_skipn.
  replace (Z.to_nat (p - cs) + Z.to_nat cs)%nat with (Z.to_nat p) by lia.
  f_equal. lia.
Qed.

End TextFacts.

(** * Properties of the Map worker *)
Module MapFacts.
Import Text TextFacts MapWorker.

(** ** Document splitting *)

Lemma past_boundary_iff (start break_point : Z) :
  past_boundary start break_point = true <-> start + 700 < break_point.
Proof.
  unfold past_boundary, settings.CHUNK_SIZE.
  rewrite negb_true_iff, <- not_true_iff_false, Qle_bool_iff.
  unfold Qle, Qplus, Qmult, inject_Z. cbn [Qnum Qden]. lia.
Qed.

(** Where the chunk that starts at [start] is cut. *)
Definition cut_end (content : str) (start : Z) : Z :=
  let end0 := start + settings.CHUNK_SIZE in
  let chunk0 := slice content start end0 in
  let break_point := Z.max (rfind "."%char chunk0) (rfind newline chunk0) in
  if (end0 <? len content) && past_boundary start break_point
  then start + break_point + 1
  else end0.

Lemma split_loop_step (fuel : nat) (content : str) (start : Z) :
  start < len content ->
  split_loop (S fuel) content start =
  {| chunk_start := start;
     chunk_end := cut_end content start;
     chunk_text := strip (slice content start (cut_end content start)) |}
    :: (if len content <=? cut_end content start - settings.CHUNK_OVERLAP
        then []
        else split_loop fuel content
               (cut_end content start - settings.CHUNK_OVERLAP)).
Proof.
  intros Hlt. cbn [split_loop]. apply Z.ltb_lt in Hlt. rewrite Hlt.
  unfold cut_end. cbv zeta.
  destruct ((start + settings.CHUNK_SIZE <? len content)
            && past_boundary start _); reflexivity.
Qed.

(** Every pass moves on by at least 702 characters before the overlap is
    taken off. *)
Lemma cut_end_progress (content : str) (start : Z) :
  0 <= start -> start + 702 <= cut_end content start.
Proof.
  intros Hstart. unfold cut_end. cbv zeta.
  destruct (start + settings.CHUNK_SIZE <? len content); cbn [andb].
  - destruct (past_boundary start _) eqn:Hpast.
    + apply past_boundary_iff in Hpast. lia.
    + unfold settings.CHUNK_SIZE. lia.
  - unfold settings.CHUNK_SIZE. lia.
Qed.

(** The number of passes the model allows is enough: more passes give the
    same chunks. *)
Lemma split_loop_fuel (content : str) (fuel1 : nat) :
  forall (fuel2 : nat) (start : Z),
    0 <= start ->
    len content - start <= Z.of_nat fuel1 ->
    len content - start <= Z.of_nat fuel2 ->
    split_loop fuel1 content start = split_loop fuel2 content start.
Proof.
  induction fuel1 as [|fuel1 IH]; intros fuel2 start Hstart H1 H2.
  - destruct fuel2 as [|fuel2]; [reflexivity|].
    cbn [split_loop]. destruct (Z.ltb_spec start (len content)); [lia|].
    reflexivity.
  - destruct (Z.ltb_spec start (len content)) as [Hlt | Hge].
    + destruct fuel2 as [|fuel2]; [lia|].
      rewrite !split_loop_step by exact Hlt.
      pose proof (cut_end_progress content start Hstart) as Hprog.
      unfold settings.CHUNK_OVERLAP in *.
      destruct (len content <=? cut_end content start - 200); [reflexivity|].
      f_equal. apply IH; lia.
    + cbn [split_loop]. destruct fuel2 as [|fuel2]; cbn [split_loop];
        destruct (Z.ltb_spec start (len content)); try lia; reflexivity.
Qed.

Lemma split_loop_covers (content : str) (fuel : nat) :
  forall (start p L : Z),
    0 <= start -> start <= p ->
    1 <= L -> L <= settings.CHUNK_OVERLAP + 1 ->
    p + L <= len content ->
    len content - start <= Z.of_nat fuel ->
    exists c,
      In c (split_loop fuel content start) /\
      chunk_start c <= p /\ p + L <= chunk_end c /\ 0 <= chunk_start c /\
      chunk_text c = strip (slice content (chunk_start c) (chunk_end c)).
Proof.
  unfold settings.CHUNK_OVERLAP.
  induction fuel as [|fuel IH]; intros start p L Hstart Hp HL1 HL2 Hfit Hfuel.
  - lia.
  - rewrite split_loop_step by lia.
    pose proof (cut_end_progress content start Hstart) as Hprog.
    unfold settings.CHUNK_OVERLAP.
    destruct (Z.le_gt_cases (p + L) (cut_end content start)) as [Hin | Hout].
    + eexists. split; [left; reflexivity|]. cbn. auto.
    + destruct (Z.leb_spec (len content) (cut_end content start - 200));
        [lia|].
      destruct (IH (cut_end content start - 200) p L) as (c & Hc & Hrest);
        try lia.
      exists c. split; [right; exact Hc | exact Hrest].
Qed.

(** C6, as the code has it.  Every run of at most [CHUNK_OVERLAP + 1]
    consecutive characters of the input lies wholly between the bounds
    [start] and [end] of at least one chunk, and is part of the text
    [content[start:end]] the chunk is made of before its surrounding white
    space is stripped. *)
Theorem split_covers_overlap (content : str) (p L : Z) :
  0 <= p -> 1 <= L -> L <= settings.CHUNK_OVERLAP + 1 ->
  p + L <= len content ->
  exists c,
    In c (chunks_of content) /\
    chunk_start c <= p /\ p + L <= chunk_end c /\
    chunk_text c = strip (slice content (chunk_start c) (chunk_end c)) /\
    slice (slice content (chunk_start c) (chunk_end c))
          (p - chunk_start c) (p - chunk_start c + L)
    = slice content p (p + L).
Proof.
  intros Hp HL1 HL2 Hfit.
  destruct (split_loop_covers content (length content) 0 p L)
    as (c & Hc & Hs & He & H0 & Htext); try lia.
  { unfold len. lia. }
  exists c. split; [exact Hc|]. split; [exact Hs|]. split; [exact He|].
  split; [exact Htext|]. apply slice_slice; lia.
Qed.

(** 700 times [a], then 800 times [b]. *)
Definition gap_content : str := repeat "a"%char 700 ++ repeat "b"%char 800.

Lemma split_covers_overlap_witness :
  0 <= 799 /\ 1 <= 201 /\ 201 <= settings.CHUNK_OVERLAP + 1 /\
  799 + 201 <= len gap_content /\
  exists c,
    In c (chunks_of gap_content) /\ chunk_start c <= 799 /\
    799 + 201 <= chunk_end c.
Proof.
  assert (H1 : 0 <= 799) by lia.
  assert (H2 : 1 <= 201) by lia.
  assert (H3 : 201 <= settings.CHUNK_OVERLAP + 1)
    by (unfold settings.CHUNK_OVERLAP; lia).
  assert (H4 : 799 + 201 <= len gap_content) by (vm_compute; discriminate).
  repeat (split; [assumption|]).
  destruct (split_covers_overlap gap_content 799 201 H1 H2 H3 H4)
    as (c & Hc & Hs & He & _).
  exists c. auto.
Defined.

(** C6, as stated, fails.  The input is cut into [content[0:1000]] and
    [content[800:1800]]; its 800 characters [b], a run of length
    [CHUNK_SIZE - CHUNK_OVERLAP], sit at positions 700 to 1499 and are in
    neither chunk. *)
Lemma split_gap_counterexample :
  let run := repeat "b"%char 800 in
  infix run gap_content /\
  len run <= settings.CHUNK_SIZE - settings.CHUNK_OVERLAP /\
  map (fun c => (chunk_start c, chunk_end c)) (chunks_of gap_content)
    = [(0, 1000); (800, 1800)] /\
  ~ exists chunk, In chunk (_split_content gap_content) /\ infix run chunk.
Proof.
  cbv zeta. split; [|split; [|split]].
  - exists (repeat "a"%char 700), []. unfold gap_content.
    now rewrite app_nil_r.
  - vm_compute. discriminate.
  - vm_compute. reflexivity.
  - intros (chunk & Hin & Hinfix).
    apply contains_spec in Hinfix.
    assert (Hnone : existsb (contains (repeat "b"%char 800))
                      (_split_content gap_content) = false)
      by (vm_compute; reflexivity).
    assert (Hsome : existsb (contains (repeat "b"%char 800))
                      (_split_content gap_content) = true).
    { apply existsb_exists. exists chunk. split; assumption. }
    congruence.
Qed.

(** The bound [CHUNK_OVERLAP + 1] cannot be raised: the 202 characters from
    position 799 on are in no chunk's bounds. *)
Lemma split_overlap_bound_tight :
  forallb (fun c => negb ((chunk_start c <=? 799) && (799 + 202 <=? chunk_end c)))
    (chunks_of gap_content) = true.
Proof. vm_compute. reflexivity. Qed.

(** ** Mapping confidence *)

Lemma py_max_step_ge (best x : Q) :
  (best <= py_max_step best x)%Q /\ (x <= py_max_step best x)%Q.
Proof.
  unfold py_max_step. destruct (Qle_bool x best) eqn:E.
  - apply Qle_bool_iff in E. split; [apply Qle_refl | exact E].
  - split; [|apply Qle_refl].
    destruct (Qlt_le_dec best x) as [Hlt | Hle].
    + now apply Qlt_le_weak.
    + apply Qle_bool_iff in Hle. congruence.
Qed.

Lemma score_max_ge_first (vs : list Q) : forall v, (v <= py_max v vs)%Q.
Proof.
  unfold py_max. induction vs as [|u vs IH]; intros v; simpl.
  - apply Qle_refl.
  - eapply Qle_trans; [|apply IH]. apply py_max_step_ge.
Qed.

Lemma score_max_upper (vs : list Q) :
  forall v x, In x (v :: vs) -> (x <= py_max v vs)%Q.
Proof.
  induction vs as [|u vs IH]; intros v x Hin.
  - destruct Hin as [-> | []]. apply Qle_refl.
  - change (py_max v (u :: vs)) with (py_max (py_max_step v u) vs).
    destruct Hin as [-> | [-> | Hin]].
    + eapply Qle_trans; [|apply score_max_ge_first]. apply py_max_step_ge.
    + eapply Qle_trans; [|apply score_max_ge_first]. apply py_max_step_ge.
    + apply IH. now right.
Qed.

Lemma score_max_member (vs : list Q) : forall v, In (py_max v vs) (v :: vs).
Proof.
  induction vs as [|u vs IH]; intros v; [now left|].
  change (py_max v (u :: vs)) with (py_max (py_max_step v u) vs).
  destruct (IH (py_max_step v u)) as [Heq | Hin].
  - rewrite <- Heq. unfold py_max_step.
    destruct (Qle_bool u v); simpl; auto.
  - right. right. exact Hin.
Qed.

Lemma py_min_spec (a b : Q) :
  ((a <= b)%Q -> py_min a b = a) /\ ((b < a)%Q -> py_min a b = b).
Proof.
  unfold py_min. destruct (Qle_bool a b) eqn:E.
  - apply Qle_bool_iff in E. split; [reflexivity|].
    intros Hlt. exfalso. exact (Qlt_not_le _ _ Hlt E).
  - split; [|reflexivity]. intros Hle. apply Qle_bool_iff in Hle. congruence.
Qed.

Lemma Qsum_nonneg (l : list Q) :
  (forall x, In x l -> (0 <= x)%Q) -> (0 <= Qsum l)%Q.
Proof.
  induction l as [|x l IH]; intros Hall; simpl.
  - apply Qle_refl.
  - replace 0%Q with (0 + 0)%Q by reflexivity.
    apply Qplus_le_compat; [apply Hall; now left|].
    apply IH. intros y Hy. apply Hall. now right.
Qed.

Lemma Qmean_nonneg (l : list Q) :
  (forall x, In x l -> (0 <= x)%Q) -> (0 <= Qmean l)%Q.
Proof.
  intros Hall. unfold Qmean, Qdiv.
  apply Qmult_le_0_compat; [now apply Qsum_nonneg|].
  apply Qinv_le_0_compat. unfold Qlen, Qle. simpl. lia.
Qed.

(** The greatest framework score, 0 for an empty map. *)
Definition top_score (framework_scores : list (string * Q)) (top : Q) : Prop :=
  match map snd framework_scores with
  | [] => top = 0%Q
  | vs => In top vs /\ forall v, In v vs -> (v <= top)%Q
  end.

(** The mean similarity of the results, 0 when there is none. *)
Definition mean_similarity (doc_results : list doc_result) : Q :=
  match doc_results with
  | [] => 0%Q
  | _ => Qmean (map similarity doc_results)
  end.

(** C8, as the code has it.  The confidence is 0.4 times the greatest
    framework score plus 0.6 times the mean similarity, a missing side
    counting 0, cut down to 1 when the sum is greater; it is never above 1,
    and it is at least 0 when no score and no similarity is negative. *)
Theorem confidence_bounded_above (framework_scores : list (string * Q))
    (doc_results : list doc_result) :
  let c := _calculate_confidence framework_scores doc_results in
  exists top,
    top_score framework_scores top /\
    let raw := (top * (4 # 10) + mean_similarity doc_results * (6 # 10))%Q in
    ((raw <= 1)%Q -> (c == raw)%Q) /\
    ((1 < raw)%Q -> (c == 1)%Q) /\
    (c <= 1)%Q /\
    ((forall v, In v (map snd framework_scores) -> (0 <= v)%Q) ->
     (forall d, In d doc_results -> (0 <= similarity d)%Q) ->
     (0 <= c)%Q).
Proof.
  cbv zeta. unfold _calculate_confidence, top_score, mean_similarity.
  set (c1 := match map snd framework_scores with
             | [] => 0%Q
             | v :: vs => (0 + py_max v vs * (4 # 10))%Q
             end).
  set (top := match map snd framework_scores with
              | [] => 0%Q
              | v :: vs => py_max v vs
              end).
  set (avg := match doc_results with
              | [] => 0%Q
              | _ => Qmean (map similarity doc_results)
              end).
  set (c2 := match doc_results with
             | [] => c1
             | _ :: _ =>
                 (c1 + Qsum (map similarity doc_results) / Qlen doc_results
                       * (6 # 10))%Q
             end).
  assert (Hc1 : (c1 == top * (4 # 10))%Q).
  { subst c1 top. destruct (map snd framework_scores); ring. }
  assert (Hc2 : (c2 == top * (4 # 10) + avg * (6 # 10))%Q).
  { subst c2 avg. destruct doc_results; rewrite Hc1;
      unfold Qmean, Qlen; rewrite ?length_map; [ring | reflexivity]. }
  exists top. split.
  { subst top. destruct (map snd framework_scores) as [|v vs]; [reflexivity|].
    split; [apply score_max_member | apply score_max_upper]. }
  destruct (py_min_spec c2 1) as [Hle Hgt].
  split; [|split; [|split]].
  - intros Hraw. rewrite <- Hc2 in Hraw. rewrite (Hle Hraw). exact Hc2.
  - intros Hraw. rewrite <- Hc2 in Hraw. rewrite (Hgt Hraw). reflexivity.
  - destruct (Qlt_le_dec 1 c2) as [H1 | H1].
    + rewrite (Hgt H1). apply Qle_refl.
    + rewrite (Hle H1). exact H1.
  - intros Hscores Hsims.
    assert (Htop : (0 <= top)%Q).
    { subst top. destruct (map snd framework_scores) as [|v vs];
        [apply Qle_refl|].
      apply Hscores. apply score_max_member. }
    assert (Havg : (0 <= avg)%Q).
    { subst avg. destruct doc_results as [|d ds]; [apply Qle_refl|].
      apply Qmean_nonneg. intros x Hx. apply in_map_iff in Hx.
      destruct Hx as (d' & <- & Hd'). now apply Hsims. }
    assert (Hraw : (0 <= c2)%Q).
    { rewrite Hc2. replace 0%Q with (0 + 0)%Q by reflexivity.
      apply Qplus_le_compat; apply Qmult_le_0_compat;
        try assumption; discriminate. }
    destruct (Qlt_le_dec 1 c2) as [H1 | H1].
    + rewrite (Hgt H1). discriminate.
    + rewrite (Hle H1). exact Hraw.
Qed.

Definition doc_with (sim : Q) : doc_result :=
  {| file_path := "README.md"; doc_chunk_text := ""; similarity := sim |}.

Lemma confidence_bounded_above_witness :
  (_calculate_confidence [("playwright"%string, 1 # 2); ("jest"%string, 1 # 2)]
     [doc_with (1 # 2)] <= 1)%Q.
Proof.
  destruct (confidence_bounded_above
              [("playwright"%string, 1 # 2); ("jest"%string, 1 # 2)]
              [doc_with (1 # 2)]) as (top & _ & _ & _ & Hle & _).
  exact Hle.
Defined.

(** C8, as stated, fails: with no framework score and one result of
    similarity -1/2 (a cosine distance of 3/2) the confidence is -3/10. *)
Lemma confidence_negative_counterexample :
  let c := _calculate_confidence [] [doc_with (-1 # 2)] in
  (c == -3 # 10)%Q /\ ~ ((0 <= c)%Q /\ (c <= 1)%Q).
Proof.
  cbv zeta. split; [vm_compute; reflexivity|].
  intros [Hge _]. vm_compute in Hge. apply Hge. reflexivity.
Qed.

(** ** More on the document splitting *)

Lemma rfind_from_bound (c : ascii) (s : str) :
  forall i last, last < i -> rfind_from c s i last < i + len s.
Proof.
  unfold len. induction s as [|x s IH]; intros i last Hlast.
  - simpl. lia.
  - cbn [rfind_from]. specialize (IH (i + 1) (if Ascii.eqb x c then i else last)).
    simpl length. destruct (Ascii.eqb x c); lia.
Qed.

Lemma rfind_bound (c : ascii) (s : str) : rfind c s < len s.
Proof. unfold rfind. pose proof (rfind_from_bound c s 0 (-1)). lia. Qed.

Lemma slice_length (s : str) (a b : Z) :
  (length (slice s a b) <= Z.to_nat (b - a))%nat /\
  len (slice s a b) <= len s.
Proof.
  unfold slice, len. rewrite length_firstn, length_skipn. lia.
Qed.

Lemma lstrip_length (s : str) : (length (lstrip s) <= length s)%nat.
Proof.
  induction s as [|c s IH]; [simpl; lia|].
  simpl. destruct (is_space c); simpl; lia.
Qed.

Lemma strip_length (s : str) : (length (strip s) <= length s)%nat.
Proof.
  unfold strip, rstrip. rewrite length_rev.
  pose proof (lstrip_length (rev (lstrip s))) as H1.
  pose proof (lstrip_length s) as H2. rewrite length_rev in H1. lia.
Qed.

(** A chunk is cut at most [CHUNK_SIZE] after its start, and short of that
    only when it starts before position 299. *)
Lemma cut_end_upper (content : str) (start : Z) :
  0 <= start ->
  cut_end content start <= start + settings.CHUNK_SIZE /\
  (299 <= start -> cut_end content start = start + settings.CHUNK_SIZE).
Proof.
  intros Hstart. unfold cut_end. cbv zeta.
  set (chunk0 := slice content start (start + settings.CHUNK_SIZE)).
  pose proof (rfind_bound "."%char chunk0) as Hdot.
  pose proof (rfind_bound newline chunk0) as Hnl.
  assert (Hlen : len chunk0 <= 1000).
  { destruct (slice_length content start (start + settings.CHUNK_SIZE))
      as [Hl _]. fold chunk0 in Hl. unfold len, settings.CHUNK_SIZE in *. lia. }
  unfold settings.CHUNK_SIZE in *.
  destruct (start + 1000 <? len content); cbn [andb]; [|lia].
  destruct (past_boundary start _) eqn:Hpast; [|lia].
  apply past_boundary_iff in Hpast. lia.
Qed.

(** Each chunk starts [CHUNK_OVERLAP] before the end of the one before. *)
Fixpoint chained (chunks : list chunk) : Prop :=
  match chunks with
  | a :: (b :: _) as rest =>
      chunk_start b = chunk_end a - settings.CHUNK_OVERLAP /\ chained rest
  | _ => True
  end.

Definition well_cut (content : str) (c : chunk) : Prop :=
  0 <= chunk_start c < len content /\
  chunk_start c + 702 <= chunk_end c <= chunk_start c + settings.CHUNK_SIZE /\
  (299 <= chunk_start c -> chunk_end c = chunk_start c + settings.CHUNK_SIZE) /\
  chunk_text c = strip (slice content (chunk_start c) (chunk_end c)) /\
  (length (chunk_text c) <= 1000)%nat.

Lemma split_loop_geometry (content : str) (fuel : nat) :
  forall start : Z,
    0 <= start ->
    Forall (well_cut content) (split_loop fuel content start) /\
    chained (split_loop fuel content start) /\
    (forall c rest, split_loop fuel content start = c :: rest ->
                    chunk_start c = start).
Proof.
  induction fuel as [|fuel IH]; intros start Hstart.
  - simpl. split; [constructor|]. split; [exact I | discriminate].
  - destruct (Z.ltb_spec start (len content)) as [Hlt | Hge].
    + rewrite split_loop_step by exact Hlt.
      pose proof (cut_end_progress content start Hstart) as Hprog.
      destruct (cut_end_upper content start Hstart) as [Hup Hfull].
      set (e := cut_end content start) in *.
      assert (Hhead : well_cut content
                {| chunk_start := start; chunk_end := e;
                   chunk_text := strip (slice content start e) |}).
      { unfold well_cut. cbn [chunk_start chunk_end chunk_text].
        split; [lia|]. split; [lia|]. split; [exact Hfull|].
        split; [reflexivity|].
        pose proof (strip_length (slice content start e)) as Hs.
        destruct (slice_length content start e) as [Hl _].
        unfold settings.CHUNK_SIZE in *. lia. }
      unfold settings.CHUNK_OVERLAP in *.
      destruct (len content <=? e - 200).
      * split; [constructor; [exact Hhead | constructor]|].
        split; [exact I|]. now intros c rest [= <- _].
      * destruct (IH (e - 200)) as (Hall & Hchain & Hfirst); [lia|].
        split; [constructor; assumption|].
        split; [|now intros c rest [= <- _]].
        destruct (split_loop fuel content (e - 200)) as [|b rest] eqn:Hrest;
          [exact I|].
        cbn [chained chunk_start chunk_end]. split; [|exact Hchain].
        unfold settings.CHUNK_OVERLAP. now apply (Hfirst b rest).
    + cbn [split_loop]. destruct (Z.ltb_spec start (len content)); [lia|].
      split; [constructor|]. split; [exact I | discriminate].
Qed.

(** X20. The chunks of a text: the first starts at 0 and each next one 200
    characters before the end of the one before; a chunk is cut between 702
    and 1000 characters after its start, and short of 1000 only when it
    starts before position 299, so the sentence-boundary rule never applies
    further on; its text is the stripped slice and has at most 1000
    characters. *)
Theorem split_content_geometry (content : str) :
  Forall (well_cut content) (chunks_of content) /\
  chained (chunks_of content) /\
  (forall c rest, chunks_of content = c :: rest -> chunk_start c = 0) /\
  Forall (fun text => (length text <= 1000)%nat) (_split_content content).
Proof.
  destruct (split_loop_geometry content (length content) 0) as (Hall & Hch & Hf);
    [lia|].
  split; [exact Hall|]. split; [exact Hch|]. split; [exact Hf|].
  unfold _split_content. apply Forall_map.
  eapply Forall_impl; [exact Hall|]. intros c Hc. apply Hc.
Qed.

Lemma slice_all (s : str) (b : Z) : len s <= b -> slice s 0 b = s.
Proof.
  intros Hb. unfold slice, len in *. rewrite Z.sub_0_r. simpl skipn.
  apply firstn_all2. lia.
Qed.

(** X21. An empty text has no chunk.  A text of at most 800 characters is
    one chunk, the stripped text.  A text of 801 to 1000 characters is two
    chunks: the stripped text, and again its stripped part from position
    800 on. *)
Theorem split_short_content (content : str) :
  (content = [] -> _split_content content = []) /\
  (1 <= len content <= 800 -> _split_content content = [strip content]) /\
  (800 < len content <= 1000 ->
   _split_content content
   = [strip content; strip (skipn 800 content)]).
Proof.
  split; [intros ->; reflexivity|].
  assert (Hfirst : 1 <= len content <= 1000 ->
            cut_end content 0 = 1000 /\ slice content 0 1000 = content).
  { intros Hlen. split; [|apply slice_all; lia].
    unfold cut_end, settings.CHUNK_SIZE. cbv zeta.
    destruct (Z.ltb_spec (0 + 1000) (len content)); [lia | reflexivity]. }
  unfold _split_content, chunks_of. split.
  - intros Hlen. destruct (Hfirst ltac:(lia)) as [Hcut Hslice].
    destruct content as [|c content]; [unfold len in Hlen; simpl in Hlen; lia|].
    cbn [length]. rewrite split_loop_step by lia.
    rewrite Hcut, Hslice. unfold settings.CHUNK_OVERLAP.
    destruct (Z.leb_spec (len (c :: content)) (1000 - 200)); [|lia].
    reflexivity.
  - intros Hlen. destruct (Hfirst ltac:(lia)) as [Hcut Hslice].
    destruct content as [|c content]; [unfold len in Hlen; simpl in Hlen; lia|].
    cbn [length]. rewrite split_loop_step by lia.
    rewrite Hcut, Hslice. unfold settings.CHUNK_OVERLAP.
    destruct (Z.leb_spec (len (c :: content)) (1000 - 200)); [lia|].
    destruct content as [|c' content];
      [unfold len in Hlen; simpl in Hlen; lia|].
    cbn [length]. rewrite split_loop_step by lia.
    assert (Hcut2 : cut_end (c :: c' :: content) (1000 - 200) = 1800).
    { unfold cut_end, settings.CHUNK_SIZE. cbv zeta.
      destruct (Z.ltb_spec (1000 - 200 + 1000) (len (c :: c' :: content)));
        [lia | reflexivity]. }
    rewrite Hcut2. unfold settings.CHUNK_OVERLAP.
    destruct (Z.leb_spec (len (c :: c' :: content)) (1800 - 200)); [|lia].
    cbn [map chunk_text]. f_equal. f_equal. f_equal.
    unfold slice. change (Z.to_nat (1000 - 200)) with 800%nat.
    apply firstn_all2. rewrite length_skipn. unfold len in Hlen. lia.
Qed.

Lemma split_short_content_witness :
  1 <= len (of_string "  Install the tool. ") <= 800 /\
  _split_content (of_string "  Install the tool. ")
  = [of_string "Install the tool."].
Proof.
  assert (H : 1 <= len (of_string "  Install the tool. ") <= 800)
    by (vm_compute; split; discriminate).
  split; [exact H|].
  rewrite (proj1 (proj2 (split_short_content _)) H). reflexivity.
Defined.

(** ** Framework detection *)

Definition nonneg (l : list Q) : Prop := Forall (fun v => (0 <= v)%Q) l.

Lemma add_matches_nonneg (weight : Q) (text : str) (patterns : list str) :
  (0 <= weight)%Q ->
  forall score, (0 <= score)%Q ->
    (0 <= add_matches weight text patterns score)%Q.
Proof.
  intros Hw. unfold add_matches.
  induction patterns as [|p patterns IH]; intros score Hs; [exact Hs|].
  simpl. apply IH. destruct (contains p text); [|exact Hs].
  replace 0%Q with (0 + 0)%Q by reflexivity. now apply Qplus_le_compat.
Qed.

Lemma add_all_matches_nonneg (weight : Q) (text : str)
    (frameworks : list (string * list str)) :
  (0 <= weight)%Q ->
  forall scores, nonneg scores ->
    nonneg (add_all_matches weight text frameworks scores) /\
    length (add_all_matches weight text frameworks scores) = length scores.
Proof.
  intros Hw. unfold nonneg.
  induction frameworks as [|[fw patterns] frameworks IH]; intros scores Hs.
  - destruct scores; simpl; auto.
  - destruct scores as [|score scores]; [simpl; auto|].
    inversion Hs as [|? ? H0 Hrest]; subst.
    destruct (IH scores Hrest) as [Hn Hl]. cbn [add_all_matches]. split.
    + constructor; [now apply add_matches_nonneg | exact Hn].
    + simpl. now rewrite Hl.
Qed.

Lemma scan_file_nonneg (scores : list Q) (f : tracked_file) :
  nonneg scores ->
  nonneg (scan_file scores f) /\ length (scan_file scores f) = length scores.
Proof.
  intros Hs. unfold scan_file. cbv zeta.
  destruct (add_all_matches_nonneg 1 (lower (tracked_path f))
              FRAMEWORK_PATTERNS ltac:(discriminate) scores Hs) as [H1 L1].
  destruct (file_content f) as [content|]; [|auto].
  destruct (add_all_matches_nonneg (5 # 10) content FRAMEWORK_PATTERNS
              ltac:(discriminate) _ H1) as [H2 L2].
  split; [exact H2 | congruence].
Qed.

Lemma scan_files_nonneg (files : list tracked_file) :
  forall scores, nonneg scores ->
    nonneg (fold_left scan_file files scores) /\
    length (fold_left scan_file files scores) = length scores.
Proof.
  induction files as [|f files IH]; intros scores Hs; [auto|].
  simpl. destruct (scan_file_nonneg scores f Hs) as [H1 L1].
  destruct (IH _ H1) as [H2 L2]. split; [exact H2 | congruence].
Qed.

Lemma Qsum_bounds_member (l : list Q) :
  nonneg l -> forall v, In v l -> (v <= Qsum l)%Q.
Proof.
  unfold nonneg. induction 1 as [|x l Hx Hl IH]; intros v Hv; [destruct Hv|].
  simpl. assert (Hsum : (0 <= Qsum l)%Q).
  { apply Qsum_nonneg. intros y Hy. rewrite Forall_forall in Hl.
    apply Hl. now apply list_elem_of_In. }
  destruct Hv as [<- | Hv].
  - rewrite <- (Qplus_0_r x) at 1. now apply Qplus_le_r.
  - rewrite <- (Qplus_0_l v). apply Qplus_le_compat; [exact Hx | now apply IH].
Qed.

Lemma Qsum_scaled (l : list Q) (t : Q) :
  (Qsum (map (fun v => v / t) l) == Qsum l / t)%Q.
Proof.
  induction l as [|x l IH]; simpl.
  - unfold Qdiv. ring.
  - rewrite IH. unfold Qdiv. ring.
Qed.

Definition framework_names : list string :=
  ["playwright"; "cypress"; "pytest"; "jest"]%string.

Lemma map_fst_combine {A B : Type} (a : list A) (b : list B) :
  length a = length b -> map fst (combine a b) = a /\ map snd (combine a b) = b.
Proof.
  revert b. induction a as [|x a IH]; intros [|y b] Hlen; try discriminate.
  - auto.
  - simpl in *. destruct (IH b) as [-> ->]; [lia | auto].
Qed.

Lemma detect_framework_scores (files : list tracked_file) :
  let scores := detect_framework files in
  map fst scores = framework_names /\
  (forall v, In v (map snd scores) -> (0 <= v)%Q /\ (v <= 1)%Q) /\
  ((Qsum (map snd scores) == 1)%Q \/
   (forall v, In v (map snd scores) -> (v == 0)%Q)).
Proof.
  cbv zeta. unfold detect_framework. cbv zeta.
  set (raw := fold_left scan_file files (map (fun _ => 0%Q) FRAMEWORK_PATTERNS)).
  destruct (scan_files_nonneg files (map (fun _ => 0%Q) FRAMEWORK_PATTERNS))
    as [Hnn Hlen].
  { repeat constructor; discriminate. }
  change (nonneg raw) in Hnn.
  change (length raw = length (map (fun _ => 0%Q) FRAMEWORK_PATTERNS)) in Hlen.
  assert (Hmember : forall v, In v raw -> (0 <= v)%Q /\ (v <= Qsum raw)%Q).
  { intros v Hv. split; [|now apply Qsum_bounds_member].
    unfold nonneg in Hnn. rewrite Forall_forall in Hnn.
    apply Hnn. now apply list_elem_of_In. }
  destruct (Qle_bool (Qsum raw) 0) eqn:Htotal.
  - apply Qle_bool_iff in Htotal.
    assert (Hsame : length (map fst FRAMEWORK_PATTERNS) = length raw)
      by (etrans; [|symmetry; exact Hlen]; now rewrite !length_map).
    destruct (map_fst_combine _ _ Hsame) as [-> ->].
    split; [reflexivity|]. split.
    + intros v Hv. destruct (Hmember v Hv) as [H0 Hs]. split; [exact H0|].
      eapply Qle_trans; [exact Hs|]. eapply Qle_trans; [exact Htotal|].
      discriminate.
    + right. intros v Hv. destruct (Hmember v Hv) as [H0 Hs].
      apply Qle_antisym; [|exact H0]. eapply Qle_trans; eassumption.
  - assert (Hpos : (0 < Qsum raw)%Q).
    { destruct (Qlt_le_dec 0 (Qsum raw)) as [H | H]; [exact H|].
      apply Qle_bool_iff in H. congruence. }
    assert (Hsame : length (map fst FRAMEWORK_PATTERNS)
                    = length (map (fun v => (v / Qsum raw)%Q) raw))
      by (rewrite (length_map (fun v => (v / Qsum raw)%Q));
          etrans; [|symmetry; exact Hlen]; now rewrite !length_map).
    destruct (map_fst_combine _ _ Hsame) as [-> ->].
    split; [reflexivity|]. split.
    + intros v Hv. apply in_map_iff in Hv. destruct Hv as (x & <- & Hx).
      destruct (Hmember x Hx) as [H0 Hs]. split.
      * apply Qle_shift_div_l; [exact Hpos|]. now rewrite Qmult_0_l.
      * apply Qle_shift_div_r; [exact Hpos|]. now rewrite Qmult_1_l.
    + left. rewrite Qsum_scaled. field. intros Hz. rewrite Hz in Hpos.
      discriminate.
Qed.


Lemma detect_framework_normalized_bounds (files : list tracked_file) :
  map fst (detect_framework files) = framework_names /\
  (forall v, In v (map snd (detect_framework files)) ->
     (0 <= v)%Q /\ (v <= 1)%Q).
Proof.
  destruct (detect_framework_scores files) as (H1 & H2 & _). auto.
Qed.

(** The confidence before the cut at 1. *)
Lemma confidence_raw (framework_scores : list (string * Q))
    (doc_results : list doc_result) :
  exists top c,
    top_score framework_scores top /\
    (c == top * (4 # 10) + mean_similarity doc_results * (6 # 10))%Q /\
    _calculate_confidence framework_scores doc_results = py_min c 1.
Proof.
  unfold _calculate_confidence, top_score, mean_similarity. cbv zeta.
  destruct (map snd framework_scores) as [|v vs].
  - exists 0%Q. eexists. split; [reflexivity|]. split; [|reflexivity].
    destruct doc_results; unfold Qmean, Qlen; rewrite ?length_map; ring.
  - exists (py_max v vs). eexists.
    split; [split; [apply score_max_member | apply score_max_upper]|].
    split; [|reflexivity].
    destruct doc_results; unfold Qmean, Qlen; rewrite ?length_map; ring.
Qed.

Lemma Qmean_le_one (l : list Q) :
  l <> [] -> (forall x, In x l -> (x <= 1)%Q) -> (Qmean l <= 1)%Q.
Proof.
  intros Hne Hall. unfold Qmean.
  assert (Hpos : (0 < Qlen l)%Q).
  { destruct l; [contradiction|]. unfold Qlen, Qlt. simpl. lia. }
  apply Qle_shift_div_r; [exact Hpos|]. rewrite Qmult_1_l. clear Hne Hpos.
  induction l as [|x l IH]; [discriminate|].
  simpl Qsum. rewrite ValidateFacts.Qlen_cons.
  rewrite (Qplus_comm 1). rewrite (Qplus_comm x).
  apply Qplus_le_compat; [|apply Hall; now left].
  apply IH. intros y Hy. apply Hall. now right.
Qed.

(** X23. For the scores of [detect_framework] and results whose similarity
    is between 0 and 1, the confidence is between 0 and 1 and the cut at 1
    changes nothing: it is 0.4 times the greatest score plus 0.6 times the
    mean similarity. *)
Theorem confidence_of_detection (files : list tracked_file)
    (doc_results : list doc_result) :
  (forall d, In d doc_results ->
     (0 <= similarity d)%Q /\ (similarity d <= 1)%Q) ->
  let c := _calculate_confidence (detect_framework files) doc_results in
  (0 <= c)%Q /\ (c <= 1)%Q /\
  exists top,
    top_score (detect_framework files) top /\
    (c == top * (4 # 10) + mean_similarity doc_results * (6 # 10))%Q.
Proof.
  intros Hsim. cbv zeta.
  destruct (confidence_raw (detect_framework files) doc_results)
    as (top & c & Htop & Hc & ->).
  destruct (detect_framework_normalized_bounds files) as [Hnames Hrange].
  assert (Htop01 : (0 <= top)%Q /\ (top <= 1)%Q).
  { unfold top_score in Htop. revert Htop Hrange.
    destruct (map snd (detect_framework files)) as [|v vs].
    - intros -> _. split; discriminate.
    - intros [Hin _] Hrange. now apply Hrange. }
  assert (Havg : (0 <= mean_similarity doc_results)%Q
                 /\ (mean_similarity doc_results <= 1)%Q).
  { unfold mean_similarity. destruct doc_results as [|d ds] eqn:Hd;
      [split; discriminate|]. rewrite <- Hd in *. split.
    - apply Qmean_nonneg. intros x Hx. apply in_map_iff in Hx.
      destruct Hx as (d' & <- & Hd'). now apply Hsim.
    - apply Qmean_le_one; [subst; discriminate|].
      intros x Hx. apply in_map_iff in Hx.
      destruct Hx as (d' & <- & Hd'). now apply Hsim. }
  destruct Htop01 as [Ht0 Ht1]. destruct Havg as [Ha0 Ha1].
  assert (Hc0 : (0 <= c)%Q).
  { rewrite Hc. replace 0%Q with (0 + 0)%Q by reflexivity.
    apply Qplus_le_compat; apply Qmult_le_0_compat;
      try assumption; discriminate. }
  assert (Hc1 : (c <= 1)%Q).
  { rewrite Hc.
    assert (E : (1 == 1 * (4 # 10) + 1 * (6 # 10))%Q) by reflexivity.
    rewrite E. apply Qplus_le_compat;
      (apply Qmult_le_compat_r; [assumption | discriminate]). }
  rewrite (proj1 (py_min_spec c 1) Hc1).
  split; [exact Hc0|]. split; [exact Hc1|].
  exists top. split; [exact Htop | exact Hc].
Qed.

Lemma confidence_of_detection_witness :
  (forall d, In d [doc_with (1 # 2)] ->
     (0 <= similarity d)%Q /\ (similarity d <= 1)%Q) /\
  (_calculate_confidence
     (detect_framework
        [ {| tracked_path := of_string "playwright.config.ts";
             file_content := Some (of_string "page.goto('/')") |} ])
     [doc_with (1 # 2)] <= 1)%Q.
Proof.
  assert (H : forall d, In d [doc_with (1 # 2)] ->
                (0 <= similarity d)%Q /\ (similarity d <= 1)%Q).
  { intros d [<- | []]. split; discriminate. }
  split; [exact H|].
  exact (proj1 (proj2 (confidence_of_detection _ _ H))).
Defined.

(** ** Module path suggestions *)

(** Scores that do not go up along the list. *)
Fixpoint descending (l : list (str * Q)) : Prop :=
  match l with
  | a :: (b :: _) as rest => (snd b <= snd a)%Q /\ descending rest
  | _ => True
  end.

Lemma insert_by_score_descending (x : str * Q) (l : list (str * Q)) :
  descending l -> descending (insert_by_score x l).
Proof.
  induction l as [|y l IH]; intros Hl; [exact I|].
  cbn [insert_by_score].
  destruct (Qle_bool (snd y) (snd x)) eqn:E.
  - apply Qle_bool_iff in E. split; [exact E | exact Hl].
  - assert (Hlt : (snd x <= snd y)%Q).
    { destruct (Qlt_le_dec (snd x) (snd y)) as [H | H];
        [now apply Qlt_le_weak|].
      apply Qle_bool_iff in H. congruence. }
    destruct l as [|z l].
    + cbn. auto.
    + destruct Hl as [Hzy Hl]. specialize (IH Hl).
      cbn [insert_by_score] in *.
      destruct (Qle_bool (snd z) (snd x)); cbn [descending] in *; auto.
Qed.

Lemma insert_by_score_members (x : str * Q) (l : list (str * Q)) :
  forall y, In y (insert_by_score x l) <-> y = x \/ In y l.
Proof.
  induction l as [|z l IH]; intros y; cbn [insert_by_score].
  - simpl. intuition congruence.
  - destruct (Qle_bool (snd z) (snd x)); simpl.
    + intuition congruence.
    + rewrite IH. intuition congruence.
Qed.

Lemma sort_by_score_spec (l : list (str * Q)) :
  descending (sort_by_score l) /\
  (forall y, In y (sort_by_score l) <-> In y l) /\
  length (sort_by_score l) = length l.
Proof.
  unfold sort_by_score. induction l as [|x l (Hd & Hm & Hl)]; simpl.
  - split; [exact I|]. split; [tauto | reflexivity].
  - split; [now apply insert_by_score_descending|]. split.
    + intros y. rewrite insert_by_score_members, Hm. intuition congruence.
    + rewrite <- Hl. clear. generalize (fold_right insert_by_score [] l).
      intros s. induction s as [|z s IH]; [reflexivity|].
      cbn [insert_by_score]. destruct (Qle_bool (snd z) (snd x)); simpl; lia.
Qed.

Lemma firstn_descending (n : nat) :
  forall l, descending l -> descending (firstn n l).
Proof.
  induction n as [|n IH]; intros l Hl; [exact I|].
  destruct l as [|a [|b l]]; [exact I | destruct n; exact I|].
  destruct Hl as [Hab Hl]. specialize (IH _ Hl).
  destruct n as [|n]; [exact I|]. cbn [firstn descending] in *. auto.
Qed.

(** X24. [guess_module_path] returns at most ten suggestions, in an order in
    which the score never goes up; each is a listed path that is not empty,
    with its relevance for the keywords, which is positive. *)
Theorem guess_module_path_ranked (keywords : list str) (paths : list str) :
  let suggestions := guess_module_path keywords paths in
  (length suggestions <= 10)%nat /\
  descending suggestions /\
  forall file_path score, In (file_path, score) suggestions ->
    In file_path paths /\ file_path <> [] /\
    score = relevance keywords file_path /\ (0 < score)%Q.
Proof.
  cbv zeta. unfold guess_module_path. cbv zeta.
  set (found := List.filter _ (map _ _)).
  destruct (sort_by_score_spec found) as (Hd & Hm & _).
  split; [rewrite length_firstn; lia|].
  split; [now apply firstn_descending|].
  intros file_path score Hin.
  assert (Hin' : In (file_path, score) (sort_by_score found)).
  { rewrite <- (firstn_skipn 10 (sort_by_score found)).
    apply in_or_app. now left. }
  clear Hin. rename Hin' into Hin. apply Hm in Hin.
  subst found. apply filter_In in Hin. destruct Hin as [Hin Hpos].
  apply in_map_iff in Hin. destruct Hin as (p & [= <- <-] & Hp).
  apply filter_In in Hp. destruct Hp as [Hp Hne].
  split; [exact Hp|]. split.
  - intros ->. discriminate.
  - split; [reflexivity|]. cbn [snd] in Hpos.
    destruct (Qlt_le_dec 0 (relevance keywords p)) as [H | H]; [exact H|].
    apply Qle_bool_iff in H. rewrite H in Hpos. discriminate.
Qed.

(** Paths of equal score keep the order in which they were listed. *)
Example guess_module_path_ties :
  map fst (guess_module_path [of_string "cart"]
             [of_string "src/cart.js"; of_string "README.md";
              of_string "test/cart.spec.js"; of_string "lib/cart.ts"])
  = [of_string "test/cart.spec.js"; of_string "src/cart.js";
     of_string "lib/cart.ts"].
Proof. vm_compute. reflexivity. Qed.

End MapFacts.

(** * Properties of the Ingest worker *)
Module IngestFacts.
Import Text TextFacts Ingest.

(** The tokens that decide the selection, once the patterns are in lower
    case: [error:] asks for no more than [error] does, and [warning] for no
    more than [warn]. *)
Definition effective_tokens : list str :=
  map of_string
    ["error"; "exception:"; "failed:"; "traceback"; "warn"; "fatal"]%string.

Definition matches (line : str) : Prop :=
  exists token, In token effective_tokens /\ infix token (lower line).

Lemma existsb_map_compose {A B : Type} (f : B -> bool) (g : A -> B)
    (l : list A) :
  existsb (fun x => f (g x)) l = existsb f (map g l).
Proof. induction l as [|x l IH]; simpl; [reflexivity | now rewrite IH]. Qed.

Lemma lowered_patterns :
  map lower error_patterns =
  map of_string
    ["error:"; "exception:"; "failed:"; "traceback";
     "error"; "warn"; "warning"; "fatal"]%string.
Proof. vm_compute. reflexivity. Qed.

Lemma is_relevant_iff (line : str) :
  is_relevant line = true <-> matches line.
Proof.
  unfold is_relevant, matches. cbv zeta.
  rewrite (existsb_map_compose (fun p => contains p (lower line)) lower).
  rewrite lowered_patterns, existsb_exists. split.
  - intros (p & Hin & Hp). apply contains_spec in Hp.
    cbn [map In] in Hin.
    destruct Hin as [<- | [<- | [<- | [<- | [<- | [<- | [<- | [<- | []]]]]]]]].
    + exists (of_string "error"). split; [cbn; tauto|].
      eapply infix_trans; [|exact Hp].
      exact (infix_prefix (of_string "error") (of_string ":")).
    + exists (of_string "exception:"). split; [cbn; tauto | exact Hp].
    + exists (of_string "failed:"). split; [cbn; tauto | exact Hp].
    + exists (of_string "traceback"). split; [cbn; tauto | exact Hp].
    + exists (of_string "error"). split; [cbn; tauto | exact Hp].
    + exists (of_string "warn"). split; [cbn; tauto | exact Hp].
    + exists (of_string "warn"). split; [cbn; tauto|].
      eapply infix_trans; [|exact Hp].
      exact (infix_prefix (of_string "warn") (of_string "ing")).
    + exists (of_string "fatal"). split; [cbn; tauto | exact Hp].
  - intros (t & Hin & Ht). exists t. split.
    + cbn [effective_tokens map In] in Hin. cbn [map In]. tauto.
    + now apply contains_spec.
Qed.

Lemma collect_relevant_filter (lines : list str) :
  forall relevant_lines,
    collect_relevant lines relevant_lines =
    relevant_lines ++ map strip (List.filter is_relevant lines).
Proof.
  induction lines as [|line lines IH]; intros acc; simpl.
  - now rewrite app_nil_r.
  - destruct (is_relevant line); rewrite IH; [|reflexivity].
    now rewrite <- app_assoc.
Qed.

(** C9, as the code has it.  A line is selected when, compared without regard
    to case, it contains one of [error], [exception:], [failed:],
    [traceback], [warn], [fatal]; the output is the first 50 selected lines,
    each stripped of its surrounding white space, joined by newlines, and the
    first 1000 characters of the text when no line is selected. *)
Theorem log_extraction_selects (content : str) :
  (forall line, is_relevant line = true <-> matches line) /\
  let selected := List.filter is_relevant (split_lines content) in
  (selected = [] -> extract_text_from_log content = firstn 1000 content) /\
  (selected <> [] ->
     extract_text_from_log content
     = join_lines (firstn 50 (map strip selected))).
Proof.
  split; [exact is_relevant_iff|]. cbv zeta.
  unfold extract_text_from_log. cbv zeta.
  rewrite collect_relevant_filter. cbn [app].
  destruct (List.filter is_relevant (split_lines content)) as [|l ls].
  - split; [reflexivity | congruence].
  - split; [discriminate | reflexivity].
Qed.

Definition two_line_log : str :=
  of_string "job Failed" ++ newline :: of_string "ERROR disk full".

Lemma log_extraction_selects_witness :
  List.filter is_relevant (split_lines two_line_log) <> [] /\
  extract_text_from_log two_line_log = of_string "ERROR disk full".
Proof.
  assert (Hsel : List.filter is_relevant (split_lines two_line_log) <> [])
    by (vm_compute; discriminate).
  split; [exact Hsel|].
  rewrite (proj2 (proj2 (log_extraction_selects two_line_log)) Hsel).
  vm_compute. reflexivity.
Defined.

(** C9, as stated, fails: the line [job Failed] contains the token [Failed]
    and is not in the output, because the pattern of the code is [Failed:]. *)
Lemma log_extraction_counterexample :
  spec_selected (of_string "job Failed") = true /\
  spec_log_output two_line_log = two_line_log /\
  extract_text_from_log two_line_log = of_string "ERROR disk full" /\
  extract_text_from_log two_line_log <> spec_log_output two_line_log.
Proof. vm_compute. repeat split; try reflexivity. discriminate. Qed.

(** The output is also cut after 50 lines: of 51 lines [ERROR] it keeps 50. *)
Lemma log_extraction_keeps_50_lines :
  let content := join_lines (repeat (of_string "ERROR") 51) in
  length (split_lines (extract_text_from_log content)) = 50%nat /\
  length (split_lines (spec_log_output content)) = 51%nat.
Proof. vm_compute. split; reflexivity. Qed.

(** ** Lines in and out *)

Definition plain (line : str) : Prop := ~ In newline line.

Lemma split_lines_nonempty (s : str) : split_lines s <> [].
Proof.
  induction s as [|c s IH]; [discriminate|].
  cbn [split_lines]. destruct (Ascii.eqb c newline); [discriminate|].
  destruct (split_lines s); discriminate.
Qed.

Lemma split_lines_plain (s : str) : Forall plain (split_lines s).
Proof.
  induction s as [|c s IH]; [repeat constructor; intros []|].
  cbn [split_lines]. destruct (Ascii.eqb c newline) eqn:E.
  - constructor; [intros [] | exact IH].
  - destruct (split_lines s) as [|line lines]; [repeat constructor|].
    + intros [-> | []]. now rewrite Ascii.eqb_refl in E.
    + inversion IH as [|? ? Hline Hlines]; subst. constructor; [|exact Hlines].
      intros [-> | Hin]; [now rewrite Ascii.eqb_refl in E | now apply Hline].
Qed.

Lemma split_lines_app (line rest : str) :
  plain line ->
  split_lines (line ++ newline :: rest) = line :: split_lines rest.
Proof.
  induction line as [|c line IH]; intros Hplain.
  - cbn [app split_lines]. now rewrite Ascii.eqb_refl.
  - cbn [app split_lines].
    destruct (Ascii.eqb c newline) eqn:E.
    + apply Ascii.eqb_eq in E. subst c. exfalso. apply Hplain. now left.
    + rewrite IH; [reflexivity|]. intros Hin. apply Hplain. now right.
Qed.

Lemma split_lines_one (line : str) : plain line -> split_lines line = [line].
Proof.
  induction line as [|c line IH]; intros Hplain; [reflexivity|].
  cbn [split_lines]. destruct (Ascii.eqb c newline) eqn:E.
  - apply Ascii.eqb_eq in E. subst c. exfalso. apply Hplain. now left.
  - rewrite IH; [reflexivity|]. intros Hin. apply Hplain. now right.
Qed.

(** Joining lines and splitting the result gives the lines back. *)
Lemma split_join_lines (lines : list str) :
  lines <> [] -> Forall plain lines -> split_lines (join_lines lines) = lines.
Proof.
  induction lines as [|line lines IH]; intros Hne Hplain; [contradiction|].
  inversion Hplain as [|? ? Hline Hrest]; subst.
  destruct lines as [|line' lines].
  - cbn [join_lines]. now apply split_lines_one.
  - change (join_lines (line :: line' :: lines))
      with (line ++ newline :: join_lines (line' :: lines)).
    rewrite split_lines_app by exact Hline.
    f_equal. apply IH; [discriminate | exact Hrest].
Qed.

(** Splitting a text and joining the lines gives the text back. *)
Lemma join_split_lines (s : str) : join_lines (split_lines s) = s.
Proof.
  induction s as [|c s IH]; [reflexivity|].
  cbn [split_lines]. pose proof (split_lines_nonempty s) as Hne. revert IH.
  destruct (split_lines s) as [|l ls]; [contradiction|]. intros IH.
  destruct (Ascii.eqb c newline) eqn:E.
  - apply Ascii.eqb_eq in E. subst c.
    change (join_lines ([] :: l :: ls)) with (newline :: join_lines (l :: ls)).
    now rewrite IH.
  - destruct ls as [|l' ls].
    + cbn [join_lines] in *. now rewrite IH.
    + change (join_lines ((c :: l) :: l' :: ls))
        with (c :: join_lines (l :: l' :: ls)).
      now rewrite IH.
Qed.

Lemma lstrip_members (s : str) : forall c, In c (lstrip s) -> In c s.
Proof.
  induction s as [|x s IH]; intros c Hc; [exact Hc|].
  simpl in Hc. destruct (is_space x); [right; now apply IH | exact Hc].
Qed.

Lemma strip_members (s : str) : forall c, In c (strip s) -> In c s.
Proof.
  intros c Hc. unfold strip, rstrip in Hc.
  apply in_rev, lstrip_members, in_rev in Hc. now apply lstrip_members.
Qed.

Lemma strip_plain (line : str) : plain line -> plain (strip line).
Proof. intros Hplain Hin. apply Hplain. now apply strip_members. Qed.

(** X25. Splitting a log at its newlines and joining the lines gives the
    log back.  When a line is relevant, the output splits into the first 50
    relevant lines, each stripped, so into at most 50 lines; when none is,
    the output has at most 1000 characters. *)
Theorem log_extract_lines (content : str) :
  let selected := List.filter is_relevant (split_lines content) in
  let output := extract_text_from_log content in
  join_lines (split_lines content) = content /\
  (selected <> [] ->
     split_lines output = firstn 50 (map strip selected) /\
     (length (split_lines output) <= 50)%nat) /\
  (selected = [] ->
     output = firstn 1000 content /\ (length output <= 1000)%nat).
Proof.
  cbv zeta. split; [apply join_split_lines|].
  unfold extract_text_from_log. cbv zeta.
  rewrite collect_relevant_filter. cbn [app].
  pose proof (split_lines_plain content) as Hplain.
  destruct (List.filter is_relevant (split_lines content)) as [|l ls] eqn:Hsel.
  - cbn [map]. split; [congruence|]. intros _. split; [reflexivity|].
    rewrite length_firstn; lia.
  - split; [|discriminate]. intros _. cbn [map].
    change (strip l :: map strip ls) with (map strip (l :: ls)).
    assert (Hlines : split_lines (join_lines (firstn 50 (map strip (l :: ls))))
                     = firstn 50 (map strip (l :: ls))).
    { apply split_join_lines; [discriminate|].
      apply Forall_forall. intros x Hx. apply list_elem_of_In in Hx.
      assert (Hin : In x (map strip (l :: ls))).
      { rewrite <- (firstn_skipn 50 (map strip (l :: ls))).
        apply in_or_app. now left. }
      apply in_map_iff in Hin. destruct Hin as (line & <- & Hline).
      apply strip_plain. rewrite <- Hsel in Hline.
      apply filter_In in Hline. destruct Hline as [Hline _].
      rewrite Forall_forall in Hplain. apply Hplain.
      now apply list_elem_of_In. }
    rewrite Hlines. split; [reflexivity|]. rewrite length_firstn. lia.
Qed.

Lemma log_extract_lines_witness :
  List.filter is_relevant (split_lines two_line_log) <> [] /\
  split_lines (extract_text_from_log two_line_log)
  = [of_string "ERROR disk full"].
Proof.
  assert (Hsel : List.filter is_relevant (split_lines two_line_log) <> [])
    by (vm_compute; discriminate).
  split; [exact Hsel|].
  rewrite (proj1 (proj1 (proj2 (log_extract_lines two_line_log)) Hsel)).
  vm_compute. reflexivity.
Defined.

(** ** The description of a report *)

Lemma collect_updates_frames (extracted_data : list extracted_item) :
  forall updates,
    collect_updates extracted_data updates
    = updates ++ omap frame extracted_data.
Proof.
  induction extracted_data as [|item items IH]; intros updates; simpl.
  - now rewrite app_nil_r.
  - destruct (frame item) as [update|]; rewrite IH; [|reflexivity].
    now rewrite <- app_assoc.
Qed.

(** What one update appends to the description. *)
Definition appended (extracted_data : list extracted_item) : str :=
  join_lines (omap frame extracted_data).

Lemma join_lines_nil_iff (lines : list str) :
  Forall (fun l => l <> []) lines -> join_lines lines = [] -> lines = [].
Proof.
  intros Hall. destruct lines as [|l [|l' ls]]; [reflexivity | |].
  - inversion Hall; subst. simpl. intros ->. contradiction.
  - inversion Hall; subst.
    change (join_lines (l :: l' :: ls))
      with (l ++ newline :: join_lines (l' :: ls)).
    destruct l; [contradiction | discriminate].
Qed.

Lemma frames_nonempty (extracted_data : list extracted_item) :
  Forall (fun l => l <> []) (omap frame extracted_data).
Proof.
  apply Forall_forall. intros l Hl. apply list_elem_of_omap in Hl.
  destruct Hl as (item & _ & Hframe). unfold frame in Hframe.
  destruct (extracted_text item) as [[|c t]|]; try discriminate.
  injection Hframe as <-. discriminate.
Qed.

Lemma update_report_description (report_id : string)
    (extracted_data : list extracted_item)
    (reports : gmap string (option str)) (result : option str) :
  reports !! report_id = Some result ->
  (appended extracted_data = [] /\
   update_report_with_extracted_text report_id extracted_data reports
   = reports) \/
  (appended extracted_data <> [] /\
   update_report_with_extracted_text report_id extracted_data reports
   = <[ report_id := Some (default [] result ++ appended extracted_data) ]>
       reports).
Proof.
  intros Hrow. unfold update_report_with_extracted_text, appended.
  assert (Hrow' : @lookup string (option (list ascii)) _ _ report_id reports
                   = Some result) by exact Hrow.
  rewrite Hrow'. cbv zeta. rewrite collect_updates_frames. cbn [app].
  pose proof (frames_nonempty extracted_data) as Hne.
  destruct (omap frame extracted_data) as [|u us] eqn:Hu.
  - left. split; reflexivity.
  - right. split; [|reflexivity].
    intros Hnil. apply join_lines_nil_iff in Hnil; [discriminate | exact Hne].
Qed.

(** X26. Updating a report that exists only ever appends to its
    description: the new description is the old one (empty when it was
    null) followed by the frames of the items that have a text, no other
    report changes, and when no item has a text nothing is written.  Doing
    the same update again appends the same frames a second time. *)
Theorem update_report_appends (report_id : string)
    (extracted_data : list extracted_item)
    (reports : gmap string (option str)) (result : option str) :
  reports !! report_id = Some result ->
  let once :=
    update_report_with_extracted_text report_id extracted_data reports in
  let twice :=
    update_report_with_extracted_text report_id extracted_data once in
  let old := default [] result in
  (forall other, other <> report_id -> once !! other = reports !! other) /\
  (appended extracted_data = [] -> once = reports) /\
  (appended extracted_data <> [] ->
     once !! report_id = Some (Some (old ++ appended extracted_data)) /\
     twice !! report_id
     = Some (Some (old ++ appended extracted_data
                       ++ appended extracted_data))).
Proof.
  intros Hrow once twice old.
  destruct (update_report_description report_id extracted_data reports result
              Hrow) as [[Hnil Honce] | [Hne Honce]].
  - subst once. rewrite Honce in *. split; [auto|].
    split; [auto | contradiction].
  - assert (Hrow1 : once !! report_id
                    = Some (Some (old ++ appended extracted_data))).
    { subst once. rewrite Honce. apply lookup_insert_eq. }
    split; [|split; [contradiction|]].
    + intros other Hother. subst once. rewrite Honce.
      now apply lookup_insert_ne.
    + intros _. split; [exact Hrow1|].
      destruct (update_report_description report_id extracted_data once _
                  Hrow1) as [[Hnil _] | [_ Htwice]]; [contradiction|].
      subst twice. rewrite Htwice, lookup_insert_eq.
      f_equal. f_equal. symmetry. apply app_assoc.
Qed.

Definition one_item : list extracted_item :=
  [ {| signal_id := of_string "s1";
       extracted_text := Some (of_string "ERROR disk full") |};
    {| signal_id := of_string "s2"; extracted_text := Some [] |};
    {| signal_id := of_string "s3"; extracted_text := None |} ].

Lemma update_report_appends_witness :
  ({[ "r1"%string := None ]} : gmap string (option str)) !! "r1"%string
    = Some None /\
  update_report_with_extracted_text "r1" one_item {[ "r1"%string := None ]}
    !! "r1"%string
  = Some (Some (newline :: of_string "--- Signal s1 ---"
                ++ newline :: of_string "ERROR disk full")).
Proof.
  assert (Hrow : ({[ "r1"%string := None ]} : gmap string (option str))
                   !! "r1"%string = Some None) by (vm_compute; reflexivity).
  split; [exact Hrow|].
  destruct (update_report_appends "r1" one_item _ _ Hrow) as (_ & _ & Happ).
  destruct Happ as [Honce _]; [vm_compute; discriminate|].
  rewrite Honce. vm_compute. reflexivity.
Defined.

End IngestFacts.

(** * Properties of the extraction of signatures *)
Module SignalLogFacts.
Import Text TextFacts Signal SignalFacts SignalLog.

Lemma lower_char_idempotent (c : ascii) :
  lower_char (lower_char c) = lower_char c.
Proof. destruct c as [[] [] [] [] [] [] [] []]; reflexivity. Qed.

Lemma lower_idempotent (s : str) : lower (lower s) = lower s.
Proof.
  unfold lower. rewrite map_map. apply map_ext. apply lower_char_idempotent.
Qed.

(** The keywords [_classify_error_type] looks for. *)
Definition classification_keywords : list string :=
  ["syntaxerror"; "syntax error"; "referenceerror"; "reference error";
   "typeerror"; "type error"; "network"; "connection"; "database"; "sql";
   "authentication"; "unauthorized"; "timeout"]%string.

#[local] Ltac keyword_found E :=
  split;
  [ discriminate
  | let Hnone := fresh "Hnone" in
    intros Hnone; exfalso;
    apply contains_spec in E;
    eapply Hnone; [|exact E]; cbn; tauto ].

(** X18. The error type does not depend on the case of the letters of the
    text, and it is [GenericError] exactly when none of the thirteen
    keywords occurs in the text put in lower case. *)
Theorem classify_error_type_generic (text : str) :
  _classify_error_type (lower text) = _classify_error_type text /\
  (_classify_error_type text = "GenericError"%string <->
   forall keyword, In keyword classification_keywords ->
     ~ infix (of_string keyword) (lower text)).
Proof.
  split.
  - unfold _classify_error_type. cbv zeta. now rewrite lower_idempotent.
  - unfold _classify_error_type, mentions. cbv zeta.
    destruct (contains (of_string "syntaxerror") (lower text)) eqn:E1;
      [keyword_found E1|].
    destruct (contains (of_string "syntax error") (lower text)) eqn:E2;
      [keyword_found E2|].
    destruct (contains (of_string "referenceerror") (lower text)) eqn:E3;
      [keyword_found E3|].
    destruct (contains (of_string "reference error") (lower text)) eqn:E4;
      [keyword_found E4|].
    destruct (contains (of_string "typeerror") (lower text)) eqn:E5;
      [keyword_found E5|].
    destruct (contains (of_string "type error") (lower text)) eqn:E6;
      [keyword_found E6|].
    destruct (contains (of_string "network") (lower text)) eqn:E7;
      [keyword_found E7|].
    destruct (contains (of_string "connection") (lower text)) eqn:E8;
      [keyword_found E8|].
    destruct (contains (of_string "database") (lower text)) eqn:E9;
      [keyword_found E9|].
    destruct (contains (of_string "sql") (lower text)) eqn:E10;
      [keyword_found E10|].
    destruct (contains (of_string "authentication") (lower text)) eqn:E11;
      [keyword_found E11|].
    destruct (contains (of_string "unauthorized") (lower text)) eqn:E12;
      [keyword_found E12|].
    destruct (contains (of_string "timeout") (lower text)) eqn:E13;
      [keyword_found E13|].
    split; [|reflexivity]. intros _ keyword Hin Hinfix.
    apply contains_spec in Hinfix. cbn [classification_keywords In] in Hin.
    repeat (destruct Hin as [<- | Hin]; [congruence|]). exact Hin.
Qed.

Section ExtractionFacts.
Variable md5_hexdigest : str -> string.
Variable _extract_stack_trace : str -> option string.
Variable _extract_key_components : str -> list string.
Variable str_of_key : cluster_key -> string.

Abbreviation extract :=
  (_extract_error_signature md5_hexdigest _extract_stack_trace
     _extract_key_components).

Lemma extracted_units (error_entries : list log_entry) :
  Forall unit_frequency (map extract error_entries).
Proof.
  apply Forall_forall. intros s Hs. apply list_elem_of_In, in_map_iff in Hs.
  destruct Hs as (e & <- & _). reflexivity.
Qed.

(** A signature extracted from a log entry has frequency 1, the message and
    the details of the entry, and severity [high] exactly when the level of
    the entry is [ERROR] or missing; and two entries with the same message
    and details get the same hash and the same error type. *)
Lemma extracted_signature_fields (e : log_entry) :
  frequency (extract e) = 1 /\
  message (extract e) = entry_message e /\
  details (extract e) = entry_details e /\
  (severity (extract e) = "high"%string <->
   level e = None \/ level e = Some "ERROR"%string) /\
  (forall e', entry_message e' = entry_message e ->
              entry_details e' = entry_details e ->
              signature_hash (extract e') = signature_hash (extract e) /\
              error_type (extract e') = error_type (extract e)).
Proof.
  split; [reflexivity|]. split; [reflexivity|]. split; [reflexivity|].
  split.
  - cbn [severity _extract_error_signature]. unfold _calculate_severity.
    cbv zeta. destruct (level e) as [l|].
    + change (default "ERROR"%string (Some l)) with l.
      destruct (decide (l = "ERROR"%string)) as [-> | Hne].
      * split; auto.
      * split.
        -- destruct (decide (l = "WARN"%string \/ l = "WARNING"%string));
             intros H; discriminate H.
        -- intros [H | H]; [discriminate | congruence].
    + change (default "ERROR"%string None) with "ERROR"%string.
      rewrite decide_True by reflexivity. split; auto.
  - intros e' Hm Hd. cbn [signature_hash error_type _extract_error_signature].
    unfold full_text. rewrite Hm, Hd. auto.
Qed.

(** X19. When the signatures extracted from a list of log entries are
    clustered, whatever the labels, the frequencies of the result add up to
    the number of entries. *)
Theorem extraction_then_clustering (embedding_model : bool)
    (cluster_labels : option (list Z)) (error_entries : list log_entry) :
  sum_frequency
    (cluster_error_signatures str_of_key embedding_model cluster_labels
       (map extract error_entries))
  = Z.of_nat (length error_entries).
Proof.
  pose proof (extracted_units error_entries) as Hunits.
  rewrite <- (length_map extract error_entries).
  set (signatures := map extract error_entries) in *.
  assert (Hplain : sum_frequency signatures = Z.of_nat (length signatures))
    by now apply sum_frequency_units.
  unfold cluster_error_signatures.
  destruct signatures as [|s0 sigs0] eqn:Hsigs; [reflexivity|].
  rewrite <- Hsigs in *.
  destruct embedding_model; [|exact Hplain].
  destruct cluster_labels as [labels|]; [|exact Hplain].
  destruct (group_by_cluster str_of_key labels 0 signatures []) as [cl|] eqn:Hg;
    [|exact Hplain].
  apply group_by_cluster_grouped in Hg; [| exact Hunits | constructor].
  destruct Hg as [Hgrouped Hlen].
  rewrite (merged_frequency _ _ Hgrouped), Hlen. reflexivity.
Qed.

End ExtractionFacts.

End SignalLogFacts.
